(** * proglog: the length-prefixed record store (internal/log/store.go)

    A shallow embedding of the [store] type and of its operations
    [newStore], [Append], [Read], [ReadAt] and [Close], together with the
    parts of Go's [encoding/binary], [bufio] and [os] packages the store
    is written against.  Machine integers are [Z] with the wrap-around
    written out, byte slices are [list byte]. *)

From Equations Require Import Equations.
From Stdlib Require Import ZArith List Lia Bool Arith Sorted.
From Stdlib Require Import Init.Byte Strings.Byte.
Import ListNotations.

Local Open Scope Z_scope.

(** ** Machine integers *)

Module Int.

Definition uint64 (z : Z) : Z := z mod 2 ^ 64.

(** Conversion [int64(x)] of a [uint64] value. *)
Definition int64 (z : Z) : Z :=
  let u := z mod 2 ^ 64 in
  if u <? 2 ^ 63 then u else u - 2 ^ 64.

(** Conversion [byte(x)]: the low eight bits. *)
Definition to_byte (z : Z) : byte :=
  match Byte.of_N (Z.to_N (Z.land z 255)) with
  | Some b => b
  | None => x00
  end.

Definition of_byte (b : byte) : Z := Z.of_N (Byte.to_N b).

(** The runtime's bound on the length of a slice ([maxAlloc] on
    linux/amd64): no [[]byte] is longer, and [make] panics beyond it. *)
Definition maxAlloc : Z := 2 ^ 48.

End Int.

(** ** Errors of the packages below *)

Inductive error : Type :=
| ErrClosed          (* os.ErrClosed: the file is already closed *)
| ErrNoSpace         (* ENOSPC / EFBIG: the medium takes no more bytes *)
| ErrNegativeOffset  (* os.File.ReadAt: negative offset *)
| ErrNotExist        (* os.Stat: the name resolves no more *)
| ErrShortWrite      (* io.ErrShortWrite *)
| EOF.               (* io.EOF *)

(** ** encoding/binary: the big-endian byte order [enc] *)

Module BigEndian.

Import Int.

(** [binary.BigEndian.PutUint64]: the eight bytes written to [b[0..7]]. *)
Definition PutUint64 (v : Z) : list byte :=
  [ to_byte (Z.shiftr v 56); to_byte (Z.shiftr v 48);
    to_byte (Z.shiftr v 40); to_byte (Z.shiftr v 32);
    to_byte (Z.shiftr v 24); to_byte (Z.shiftr v 16);
    to_byte (Z.shiftr v 8);  to_byte v ].

(** [binary.BigEndian.Uint64], applied to a slice of eight bytes (the
    bounds check [_ = b[7]] panics on a shorter one: [None]). *)
Definition Uint64 (b : list byte) : option Z :=
  match b with
  | b0 :: b1 :: b2 :: b3 :: b4 :: b5 :: b6 :: b7 :: _ =>
      Some (Z.lor (of_byte b7)
           (Z.lor (Z.shiftl (of_byte b6) 8)
           (Z.lor (Z.shiftl (of_byte b5) 16)
           (Z.lor (Z.shiftl (of_byte b4) 24)
           (Z.lor (Z.shiftl (of_byte b3) 32)
           (Z.lor (Z.shiftl (of_byte b2) 40)
           (Z.lor (Z.shiftl (of_byte b1) 48)
                  (Z.shiftl (of_byte b0) 56))))))))
  | _ => None
  end.

End BigEndian.

(** [enc = binary.BigEndian]: the encoding the record sizes are
    persisted in. *)
Module enc := BigEndian.

(** ** os: a file handle on a regular file

    The handle and the file it is open on, seen by their one owner:
    the bytes of the file, the handle's offset and flags, and the two
    ways the medium fails a call, a name that resolves no more and a
    length beyond which it takes no byte. *)

Module os.

Record File : Type := mkFile {
  data : list byte;     (* the file's bytes, from offset 0 *)
  offset : nat;         (* the handle's file offset *)
  appendMode : bool;    (* opened with O_APPEND *)
  closed : bool;        (* Close was called on the handle *)
  linked : bool;        (* f.Name() still names the file *)
  capacity : Z          (* the file length the medium accepts *)
}.

(** The bytes of a file after [p] is written at [pos]: a hole before
    [pos] reads as zeros. *)
Definition pwrite (d : list byte) (pos : nat) (p : list byte) : list byte :=
  firstn pos d ++ repeat x00 (pos - length d) ++ p
    ++ skipn (pos + length p) d.

(** [File.Write]: at the end of the file under O_APPEND, at the
    handle's offset otherwise; the bytes the medium takes are written
    and counted, and fewer than [len(b)] comes with an error. *)
Definition Write (f : File) (b : list byte) : nat * option error * File :=
  if closed f then (0%nat, Some ErrClosed, f)
  else
    let pos := if appendMode f then length (data f) else offset f in
    let n := Nat.min (length b) (Z.to_nat (capacity f - Z.of_nat pos)) in
    let f' := if (n =? 0)%nat then f
              else mkFile (pwrite (data f) pos (firstn n b)) (pos + n)
                          (appendMode f) (closed f) (linked f) (capacity f) in
    (n, if (n <? length b)%nat then Some ErrNoSpace else None, f').

(** [File.ReadAt]: a negative offset is refused first; an empty [b] is
    then filled at once, whatever the handle; otherwise [b] is filled
    from the file's bytes at [off]: the buffer after the call, the
    count, and [io.EOF] when the file ends before [len(b)] bytes.  The
    handle's offset is not used or moved. *)
Definition ReadAt (f : File) (b : list byte) (off : Z)
  : list byte * nat * option error :=
  if off <? 0 then (b, 0%nat, Some ErrNegativeOffset)
  else if (length b =? 0)%nat then (b, 0%nat, None)
  else if closed f then (b, 0%nat, Some ErrClosed)
  else
    let got := firstn (length b) (skipn (Z.to_nat off) (data f)) in
    (got ++ skipn (length got) b, length got,
     if (length got <? length b)%nat then Some EOF else None).

(** [File.Close]. *)
Definition Close (f : File) : option error * File :=
  if closed f then (Some ErrClosed, f)
  else (None, mkFile (data f) (offset f) (appendMode f) true
                     (linked f) (capacity f)).

(** [os.Stat(f.Name())], of which [newStore] uses [Size()]. *)
Definition Stat (f : File) : Z + error :=
  if linked f then inl (Z.of_nat (length (data f))) else inr ErrNotExist.

(** [os.OpenFile] on the name of [f], by a later owner: a new handle on
    the same bytes, at offset 0, with or without O_APPEND. *)
Definition reopen (f : File) (append : bool) : File :=
  mkFile (data f) 0 append false (linked f) (capacity f).

End os.

(** ** bufio: the buffered writer in front of the file

    [buffered] is [b.buf[0:b.n]] and [err] the writer's sticky error;
    the underlying writer is the store's own file handle, which the
    operations take and give back. *)

Module bufio.

Definition defaultBufSize : nat := 4096.

Record Writer : Type := mkWriter {
  buffered : list byte;
  err : option error
}.

(** [NewWriter(f)] *)
Definition NewWriter : Writer := mkWriter [] None.

Definition Available (b : Writer) : nat :=
  (defaultBufSize - length (buffered b))%nat.

(** [Writer.Flush] *)
Definition Flush (b : Writer) (f : os.File)
  : option error * Writer * os.File :=
  match err b with
  | Some e => (Some e, b, f)
  | None =>
      if (length (buffered b) =? 0)%nat then (None, b, f)
      else
        let '(n, e, f') := os.Write f (buffered b) in
        let e := match e with
                 | None => if (n <? length (buffered b))%nat
                           then Some ErrShortWrite else None
                 | Some _ => e
                 end in
        match e with
        | Some e => (Some e, mkWriter (skipn n (buffered b)) (Some e), f')
        | None => (None, mkWriter [] None, f')
        end
  end.

(** The state of the loop of [Writer.Write]: the writer, the file,
    the rest of [p] and the count [nn]. *)
Record loop_state : Type := mkLoop {
  lw : Writer;
  lf : os.File;
  lp : list byte;
  lnn : nat
}.

(** [len(p) > b.Available() && b.err == nil] *)
Definition loop_cond (st : loop_state) : bool :=
  (Available (lw st) <? length (lp st))%nat &&
  match err (lw st) with None => true | Some _ => false end.

(** One turn of the loop: a large write into an empty buffer goes to
    the file directly, otherwise the buffer is filled and flushed. *)
Definition loop_body (st : loop_state) : loop_state :=
  let b := lw st in
  if (length (buffered b) =? 0)%nat then
    let '(n, e, f') := os.Write (lf st) (lp st) in
    mkLoop (mkWriter (buffered b) e) f' (skipn n (lp st)) (lnn st + n)
  else
    let n := Nat.min (Available b) (length (lp st)) in
    let b1 := mkWriter (buffered b ++ firstn n (lp st)) (err b) in
    let '(_, b2, f') := Flush b1 (lf st) in
    mkLoop b2 f' (skipn n (lp st)) (lnn st + n).

(** The turns the loop has left, at most. *)
Definition loop_measure (st : loop_state) : nat :=
  if loop_cond st then
    if (length (buffered (lw st)) =? 0)%nat then 1%nat else 2%nat
  else 0%nat.


(** A write that reports no error has taken every byte. *)
Lemma os_Write_count f b n e f' :
  os.Write f b = (n, e, f') ->
  (n <= length b)%nat /\ (e = None -> n = length b).
Proof.
  unfold os.Write. intros H.
  destruct (os.closed f).
  - inversion H; subst. split; [lia | discriminate].
  - match type of H with context [Nat.min ?a ?b] =>
      pose proof (Nat.le_min_l a b); set (m := Nat.min a b) in *
    end.
    inversion H; subst. split; [assumption|].
    destruct (Nat.ltb_spec m (length b)); [discriminate | lia].
Qed.

(** A flush that reports no error leaves the buffer empty, and a
    failed one leaves the error pending. *)
Lemma Flush_outcome b f e b' f' :
  Flush b f = (e, b', f') ->
  err b' = e /\
  (e = None -> err b = None /\ buffered b' = []).
Proof.
  unfold Flush. intros H.
  destruct (err b) as [e0|] eqn:He.
  - inversion H; subst. split; [assumption | discriminate].
  - destruct (Nat.eqb_spec (length (buffered b)) 0) as [Hz|Hz].
    + inversion H; subst. apply length_zero_iff_nil in Hz. auto.
    + destruct (os.Write f (buffered b)) as [[n e1] f1].
      destruct e1 as [e1|].
      * inversion H; subst. split; [reflexivity | discriminate].
      * destruct (n <? length (buffered b))%nat;
          inversion H; subst; simpl; split; auto; discriminate.
Qed.

(** Each turn of the loop of [Writer.Write] uses up one of the turns
    [loop_measure] counts. *)
Lemma loop_body_decreases st :
  loop_cond st = true ->
  (loop_measure (loop_body st) < loop_measure st)%nat.
Proof.
  intros Hc. unfold loop_measure at 2. rewrite Hc.
  unfold loop_cond in Hc.
  apply andb_prop in Hc. destruct Hc as [Hlen Herr].
  apply Nat.ltb_lt in Hlen.
  destruct (err (lw st)) eqn:Hwe; [discriminate|]. clear Herr.
  unfold loop_body, loop_measure.
  destruct (Nat.eqb_spec (length (buffered (lw st))) 0) as [Hz|Hz].
  - destruct (os.Write (lf st) (lp st)) as [[n e] f'] eqn:HW.
    apply os_Write_count in HW. destruct HW as [Hn He].
    unfold loop_cond. simpl.
    destruct e as [e|]; [rewrite andb_false_r; lia|].
    rewrite length_skipn, (He eq_refl), Nat.sub_diag. simpl. lia.
  - set (n := Nat.min _ _).
    destruct (Flush _ _) as [[e b2] f'] eqn:HF.
    apply Flush_outcome in HF. destruct HF as [He Hb]. simpl in Hb.
    unfold loop_cond. simpl. rewrite He.
    destruct e as [e|]; [rewrite andb_false_r; lia|].
    destruct (Hb eq_refl) as [_ Hnil].
    rewrite Hnil. simpl. destruct (_ && _); lia.
Qed.

(** [Writer.Write]: the loop runs while [p] does not fit the buffer
    and no error is pending. *)
Equations? Write_loop (st : loop_state) : loop_state
  by wf (loop_measure st) lt :=
  Write_loop st with Equations.Prop.Logic.inspect (loop_cond st) := {
    | exist _ true Hc := Write_loop (loop_body st);
    | exist _ false _ := st }.
Proof. apply loop_body_decreases. assumption. Qed.

(** [Writer.Write]: the loop, then the rest of [p] is copied into the
    buffer unless an error is pending. *)
Definition Write (b : Writer) (f : os.File) (p : list byte)
  : nat * option error * Writer * os.File :=
  let st := Write_loop (mkLoop b f p 0) in
  match err (lw st) with
  | Some e => (lnn st, Some e, lw st, lf st)
  | None =>
      let n := Nat.min (Available (lw st)) (length (lp st)) in
      (lnn st + n, None,
       mkWriter (buffered (lw st) ++ firstn n (lp st)) None, lf st)%nat
  end.

End bufio.

Module binary.

(** [binary.Write(w, enc, v)] for a [uint64] value [v]: its eight bytes
    go to the writer in one call, whose error is returned. *)
Definition Write (w : bufio.Writer) (f : os.File) (v : Z)
  : option error * bufio.Writer * os.File :=
  let '(_, e, w', f') := bufio.Write w f (enc.PutUint64 v) in
  (e, w', f').

End binary.

(** ** The store *)

Import Int.

(** Number of bytes used to store the record's length. *)
Definition lenWidth : Z := 8.

(** The embedded [*os.File] and the writer's underlying file are one
    handle: the record holds it once.  The mutex is held for the whole
    of every method and has no state of its own between calls. *)
Record store : Type := mkStore {
  File : os.File;
  buf : bufio.Writer;
  size : Z
}.

Definition newStore (f : os.File) : store + error :=
  match os.Stat f with
  | inr e => inr e
  | inl fi_Size => inl (mkStore f bufio.NewWriter (uint64 fi_Size))
  end.

(** [Append] returns [(n, pos, err)] and the store after the call. *)
Definition Append (s : store) (p : list byte)
  : (Z * Z * option error) * store :=
  let pos := size s in
  let '(e, b1, f1) :=
    binary.Write (buf s) (File s) (uint64 (Z.of_nat (length p))) in
  match e with
  | Some e => ((0, 0, Some e), mkStore f1 b1 (size s))
  | None =>
      let '(w, e, b2, f2) := bufio.Write b1 f1 p in
      match e with
      | Some e => ((0, 0, Some e), mkStore f2 b2 (size s))
      | None =>
          let w := Z.of_nat w + lenWidth in
          ((uint64 w, pos, None),
           mkStore f2 b2 (uint64 (size s + uint64 w)))
      end
  end.

(** What a call of [Read] comes to: the record, an error, or the panic
    of [make] on a length no slice can have. *)
Inductive read_result : Type :=
| ReadOk (b : list byte)
| ReadErr (e : error)
| ReadPanic.

Definition Read (s : store) (pos : Z) : read_result * store :=
  let '(e, b1, f1) := bufio.Flush (buf s) (File s) in
  let s1 := mkStore f1 b1 (size s) in
  match e with
  | Some e => (ReadErr e, s1)
  | None =>
      let '(size_bytes, _, e) :=
        os.ReadAt f1 (repeat x00 (Z.to_nat lenWidth)) (int64 pos) in
      match e with
      | Some e => (ReadErr e, s1)
      | None =>
          match enc.Uint64 size_bytes with
          | None => (ReadPanic, s1)
          | Some n =>
              if maxAlloc <? n then (ReadPanic, s1)
              else
                let '(b, _, e) :=
                  os.ReadAt f1 (repeat x00 (Z.to_nat n))
                            (int64 (uint64 (pos + lenWidth))) in
                match e with
                | Some e => (ReadErr e, s1)
                | None => (ReadOk b, s1)
                end
          end
      end
  end.

(** [ReadAt] returns the caller's buffer after the call, [(n, err)] and
    the store. *)
Definition ReadAt (s : store) (p : list byte) (off : Z)
  : (list byte * nat * option error) * store :=
  let '(e, b1, f1) := bufio.Flush (buf s) (File s) in
  let s1 := mkStore f1 b1 (size s) in
  match e with
  | Some e => ((p, 0%nat, Some e), s1)
  | None => (os.ReadAt f1 p off, s1)
  end.

Definition Close (s : store) : option error * store :=
  let '(e, b1, f1) := bufio.Flush (buf s) (File s) in
  match e with
  | Some e => (Some e, mkStore f1 b1 (size s))
  | None =>
      let '(e, f2) := os.Close f1 in
      (e, mkStore f2 b1 (size s))
  end.

(** [appends s ps] runs [Append] on each payload of [ps] in turn and
    collects what the calls return. *)
Fixpoint appends (s : store) (ps : list (list byte))
  : list (Z * Z * option error) * store :=
  match ps with
  | [] => ([], s)
  | p :: ps' =>
      let '(r, s1) := Append s p in
      let '(rs, s2) := appends s1 ps' in
      (r :: rs, s2)
  end.

Definition succeeded (r : Z * Z * option error) : Prop := snd r = None.

Definition position (r : Z * Z * option error) : Z := snd (fst r).

(** The calls a client of the store can make, and a run of them. *)
Inductive op : Type :=
| OpAppend (p : list byte)
| OpRead (pos : Z)
| OpReadAt (p : list byte) (off : Z)
| OpClose.

Definition step (s : store) (o : op) : store :=
  match o with
  | OpAppend p => snd (Append s p)
  | OpRead pos => snd (Read s pos)
  | OpReadAt p off => snd (ReadAt s p off)
  | OpClose => snd (Close s)
  end.

Definition run (s : store) (ops : list op) : store := fold_left step ops s.

(** The bytes [Append] adds to the size on a run without failures. *)
Fixpoint appended (ops : list op) : Z :=
  match ops with
  | [] => 0
  | OpAppend p :: ops' => lenWidth + Z.of_nat (length p) + appended ops'
  | _ :: ops' => appended ops'
  end.

(** ** The on-disk format, as the specification words it *)

(** A frame: the payload's length as eight big-endian bytes, then the
    payload. *)
Definition frame (p : list byte) : list byte :=
  enc.PutUint64 (uint64 (Z.of_nat (length p))) ++ p.

Definition frames (ps : list (list byte)) : list byte :=
  concat (map frame ps).

(** The bytes a store has taken so far: those in the file, then those
    still in the buffer. *)
Definition content (s : store) : list byte :=
  os.data (File s) ++ bufio.buffered (buf s).

(** The handle writes at the end of its file. *)
Definition at_end (f : os.File) : Prop :=
  os.appendMode f = true \/ os.offset f = length (os.data f).

(** The offset at which the handle's next write lands. *)
Definition wpos (f : os.File) : nat :=
  if os.appendMode f then length (os.data f) else os.offset f.

Definition same_handle (f f' : os.File) : Prop :=
  os.appendMode f' = os.appendMode f /\ os.closed f' = os.closed f /\
  os.linked f' = os.linked f /\ os.capacity f' = os.capacity f.

(** A store in working order: the file is open and written at its end,
    no write error is pending, [size] counts the bytes taken, and the
    medium's limit is a file offset ([int64]). *)
Record store_ok (s : store) : Prop := {
  ok_open : os.closed (File s) = false;
  ok_err : bufio.err (buf s) = None;
  ok_end : at_end (File s);
  ok_size : size s = Z.of_nat (length (content s));
  ok_cap : os.capacity (File s) < 2 ^ 63
}.

(** The payload is a Go slice. *)
Definition is_slice (p : list byte) : Prop :=
  Z.of_nat (length p) <= maxAlloc.

(** ** Invariants of the loop of [Writer.Write] *)

(** What [Writer.Write] has consumed of [p] after some turns of its
    loop, started on writer [b] and file [f]: [nn] bytes of [p] are
    counted, and they follow the former content. *)
Definition consumed (b : bufio.Writer) (f : os.File) (p : list byte)
  (st : bufio.loop_state) : Prop :=
  (bufio.lnn st <= length p)%nat /\
  bufio.lp st = skipn (bufio.lnn st) p /\
  (at_end f ->
   os.data (bufio.lf st) ++ bufio.buffered (bufio.lw st) =
     os.data f ++ bufio.buffered b ++ firstn (bufio.lnn st) p /\
   at_end (bufio.lf st) /\ same_handle f (bufio.lf st)) /\
  (bufio.err b = None -> bufio.err (bufio.lw st) <> None ->
   (bufio.lnn st < length p)%nat).

(** The loop state has room in the medium for the [t] bytes that are
    written, buffered or still to take. *)
Definition fits (c : Z) (t : nat) (st : bufio.loop_state) : Prop :=
  bufio.err (bufio.lw st) = None /\
  os.closed (bufio.lf st) = false /\
  os.capacity (bufio.lf st) = c /\
  (wpos (bufio.lf st) + length (bufio.buffered (bufio.lw st)) +
   length (bufio.lp st))%nat = t /\
  Z.of_nat t <= c.

(** ** Sequences of appends *)

(** The bytes a sequence of records takes in the file. *)
Fixpoint footprint (ps : list (list byte)) : Z :=
  match ps with
  | [] => 0
  | p :: ps' => lenWidth + Z.of_nat (length p) + footprint ps'
  end.

(** What [appends] returns when no call fails, from size [z] on. *)
Fixpoint expected (z : Z) (ps : list (list byte))
  : list (Z * Z * option error) :=
  match ps with
  | [] => []
  | p :: ps' =>
      (lenWidth + Z.of_nat (length p), z, None)
        :: expected (z + (lenWidth + Z.of_nat (length p))) ps'
  end.

(** The calls that start with a flush. *)
Definition flushes (o : op) : Prop :=
  match o with
  | OpAppend _ => False
  | _ => True
  end.

(** ** Worked inputs *)

(** The payloads of the scenario: "hello", "world!" and "!". *)
Definition hello : list byte := [x68; x65; x6c; x6c; x6f].
Definition world : list byte := [x77; x6f; x72; x6c; x64; x21].
Definition bang : list byte := [x21].

(** A new, empty temporary file, open for reading and writing. *)
Definition tmp : os.File := os.mkFile [] 0 false false true 65536.

(** The store [newStore] makes of it. *)
Definition fresh : store := mkStore tmp bufio.NewWriter 0.

(** The store after "hello" was appended to the new one. *)
Definition after_hello : store := snd (Append fresh hello).

(** The store after "hello" was appended and the store closed. *)
Definition closed_store : store := snd (Close after_hello).

(** A payload that does not fit the write buffer after its prefix. *)
Definition big : list byte := repeat x2a 4090.

(** The store [newStore] makes of a new handle on the file of
    [closed_store], opened without O_APPEND. *)
Definition reopened_plain : store :=
  mkStore (os.reopen (File closed_store) false) bufio.NewWriter 13.

(** A payload of eight bytes [0xff], and the store after it was appended
    to the new one. *)
Definition ff8 : list byte := repeat xff 8.
Definition after_ff8 : store := snd (Append fresh ff8).

(** A temporary file on a medium that takes twenty bytes, and the store
    on it after "hello" was appended. *)
Definition small_tmp : os.File := os.mkFile [] 0 false false true 20.
Definition small_after_hello : store :=
  snd (Append (mkStore small_tmp bufio.NewWriter 0) hello).

(** ** Facts on the integer conversions and the byte order *)

Lemma uint64_small z : 0 <= z < 2 ^ 64 -> uint64 z = z.
Proof. intros H. unfold uint64. apply Z.mod_small. exact H. Qed.

Lemma uint64_range z : 0 <= uint64 z < 2 ^ 64.
Proof. unfold uint64. apply Z.mod_pos_bound. lia. Qed.

Lemma int64_small z : 0 <= z < 2 ^ 63 -> int64 z = z.
Proof.
  intros H. unfold int64.
  rewrite Z.mod_small by lia.
  destruct (Z.ltb_spec z (2 ^ 63)); lia.
Qed.

Lemma land_255_range z : 0 <= Z.land z 255 < 256.
Proof.
  change 255 with (Z.ones 8). rewrite Z.land_ones by lia.
  apply Z.mod_pos_bound. lia.
Qed.

Lemma of_to_byte z : of_byte (to_byte z) = Z.land z 255.
Proof.
  unfold of_byte, to_byte.
  pose proof (land_255_range z) as Hr.
  destruct (Byte.of_N (Z.to_N (Z.land z 255))) as [b|] eqn:E.
  - apply Byte.to_of_N in E. rewrite E. lia.
  - apply Byte.of_N_None_iff in E. lia.
Qed.

Lemma testbit_field v k n :
  0 <= k -> 0 <= n ->
  Z.testbit (Z.shiftl (Z.land (Z.shiftr v k) 255) k) n =
  (k <=? n) && (n <? k + 8) && Z.testbit v n.
Proof.
  intros Hk Hn.
  destruct (Z.leb_spec k n) as [Hle|Hlt]; simpl.
  - rewrite Z.shiftl_spec by lia.
    rewrite Z.land_spec, Z.shiftr_spec by lia.
    replace (n - k + k) with n by lia.
    change 255 with (Z.ones 8).
    destruct (Z.ltb_spec n (k + 8)) as [H8|H8]; simpl.
    + rewrite Z.ones_spec_low by lia. apply andb_true_r.
    + rewrite Z.ones_spec_high by lia. apply andb_false_r.
  - apply Z.shiftl_spec_low. lia.
Qed.

Lemma testbit_low v n :
  0 <= n ->
  Z.testbit (Z.land v 255) n = (n <? 8) && Z.testbit v n.
Proof.
  intros Hn.
  pose proof (testbit_field v 0 n (Z.le_refl 0) Hn) as H.
  rewrite Z.shiftr_0_r, Z.shiftl_0_r in H. rewrite H.
  destruct (Z.leb_spec 0 n); [reflexivity | lia].
Qed.

Lemma testbit_high v n :
  0 <= v < 2 ^ 64 -> 64 <= n -> Z.testbit v n = false.
Proof.
  intros Hv Hn.
  destruct (Z.eq_dec v 0) as [->|Hnz]; [apply Z.testbit_0_l|].
  apply Z.bits_above_log2; [lia|].
  assert (Z.log2 v < 64) by (apply Z.log2_lt_pow2; lia).
  lia.
Qed.

(** Settles one comparison of the goal, by arithmetic when the context
    decides it and by a case split otherwise. *)
Ltac decide_cmp :=
  match goal with
  | |- context [?a <=? ?b] =>
      first [ rewrite (proj2 (Z.leb_le a b)) by lia
            | rewrite (proj2 (Z.leb_gt a b)) by lia
            | destruct (Z.leb_spec a b) ]
  | |- context [?a <? ?b] =>
      first [ rewrite (proj2 (Z.ltb_lt a b)) by lia
            | rewrite (proj2 (Z.ltb_ge a b)) by lia
            | destruct (Z.ltb_spec a b) ]
  end; simpl.

(** The prefix written by [Append] decodes to the value it encodes. *)
Lemma Uint64_PutUint64 v :
  0 <= v < 2 ^ 64 ->
  BigEndian.Uint64 (BigEndian.PutUint64 v) = Some v.
Proof.
  intros Hv. unfold BigEndian.PutUint64, BigEndian.Uint64. f_equal.
  rewrite !of_to_byte.
  apply Z.bits_inj'. intros n Hn.
  rewrite !Z.lor_spec.
  rewrite !testbit_field by lia.
  rewrite testbit_low by lia.
  destruct (Z.testbit v n) eqn:Hb.
  - assert (n < 64).
    { destruct (Z.lt_ge_cases n 64) as [?|Hge]; [assumption|].
      rewrite (testbit_high v n Hv Hge) in Hb. discriminate. }
    rewrite !andb_true_r.
    repeat decide_cmp; reflexivity.
  - rewrite !andb_false_r. reflexivity.
Qed.

Lemma maxAlloc_val : maxAlloc = 281474976710656.
Proof. reflexivity. Qed.

Lemma frame_length p : length (frame p) = (8 + length p)%nat.
Proof. unfold frame. rewrite length_app. reflexivity. Qed.

(** ** Facts on the file and the buffered writer *)

Lemma same_handle_refl f : same_handle f f.
Proof. unfold same_handle. auto. Qed.

Lemma same_handle_trans f g h :
  same_handle f g -> same_handle g h -> same_handle f h.
Proof. unfold same_handle. intuition congruence. Qed.

Lemma pwrite_at_end d p : os.pwrite d (length d) p = d ++ p.
Proof.
  unfold os.pwrite.
  rewrite firstn_all, Nat.sub_diag. simpl.
  rewrite skipn_all2 by lia. rewrite app_nil_r. reflexivity.
Qed.

(** A handle at the end of its file appends what the medium takes. *)
Lemma os_Write_at_end f b n e f' :
  at_end f ->
  os.Write f b = (n, e, f') ->
  os.data f' = os.data f ++ firstn n b /\ at_end f' /\ same_handle f f'.
Proof.
  intros Hend H.
  pose proof (bufio.os_Write_count _ _ _ _ _ H) as [Hn _].
  unfold os.Write in H.
  destruct (os.closed f) eqn:Hcl.
  - inversion H; subst. simpl. rewrite app_nil_r.
    auto using same_handle_refl.
  - assert (Hpos : (if os.appendMode f then length (os.data f)
                    else os.offset f) = length (os.data f)).
    { destruct Hend as [Ha|Ho]; [rewrite Ha; reflexivity|].
      destruct (os.appendMode f); congruence. }
    rewrite Hpos in H.
    match type of H with context [Nat.min ?a ?c] =>
      set (m := Nat.min a c) in H
    end.
    assert (Hm : m = n) by (inversion H; reflexivity).
    rewrite Hm in H. clear m Hm.
    destruct (Nat.eqb_spec n 0) as [Hz|Hz].
    + inversion H; subst f'. rewrite Hz. simpl. rewrite app_nil_r.
      auto using same_handle_refl.
    + inversion H; subst f'. simpl. rewrite pwrite_at_end.
      split; [reflexivity|]. split.
      * right. simpl. rewrite length_app, length_firstn. lia.
      * unfold same_handle. simpl. rewrite Hcl. auto.
Qed.

Lemma at_end_wpos f : at_end f -> wpos f = length (os.data f).
Proof.
  unfold wpos. intros [Ha|Ho]; [rewrite Ha; reflexivity|].
  destruct (os.appendMode f); congruence.
Qed.

(** On an open file with room for them, all the bytes are written, and
    the next write lands after them. *)
Lemma os_Write_fits f b :
  os.closed f = false ->
  Z.of_nat (wpos f + length b) <= os.capacity f ->
  exists f', os.Write f b = (length b, None, f') /\
             wpos f' = (wpos f + length b)%nat /\ same_handle f f'.
Proof.
  intros Hcl Hcap. unfold os.Write. rewrite Hcl. fold (wpos f).
  rewrite Nat.min_l by lia.
  rewrite Nat.ltb_irrefl, firstn_all.
  destruct (Nat.eqb_spec (length b) 0) as [Hz|Hz].
  - exists f. rewrite Hz, Nat.add_0_r. auto using same_handle_refl.
  - eexists. split; [reflexivity|]. split.
    + unfold wpos at 1. cbn [os.appendMode os.data os.offset].
      destruct (os.appendMode f) eqn:Ha; [|reflexivity].
      unfold wpos. rewrite Ha, pwrite_at_end, length_app. reflexivity.
    + unfold same_handle. cbn. rewrite Hcl. auto.
Qed.

(** [Flush] moves bytes from the buffer to the end of the file and
    loses none. *)
Lemma Flush_content b f e b' f' :
  at_end f ->
  bufio.Flush b f = (e, b', f') ->
  os.data f' ++ bufio.buffered b' = os.data f ++ bufio.buffered b /\
  at_end f' /\ same_handle f f'.
Proof.
  intros Hend H. unfold bufio.Flush in H.
  destruct (bufio.err b) as [e0|].
  - inversion H; subst. auto using same_handle_refl.
  - destruct (length (bufio.buffered b) =? 0)%nat.
    + inversion H; subst. auto using same_handle_refl.
    + destruct (os.Write f (bufio.buffered b)) as [[n e1] f1] eqn:HW.
      pose proof (bufio.os_Write_count _ _ _ _ _ HW) as [Hn Hall].
      destruct (os_Write_at_end _ _ _ _ _ Hend HW) as (Hd & He & Hs).
      assert (Hsplit : os.data f1 ++ skipn n (bufio.buffered b) =
                       os.data f ++ bufio.buffered b).
      { rewrite Hd, <- app_assoc, firstn_skipn. reflexivity. }
      destruct e1 as [e1|].
      * inversion H; subst. simpl. auto.
      * rewrite (Hall eq_refl), Nat.ltb_irrefl in H.
        inversion H; subst. simpl.
        rewrite (Hall eq_refl), skipn_all in Hsplit. auto.
Qed.

(** With room in the medium, [Flush] succeeds and empties the buffer. *)
Lemma Flush_fits b f :
  bufio.err b = None -> os.closed f = false ->
  Z.of_nat (wpos f + length (bufio.buffered b)) <= os.capacity f ->
  exists f', bufio.Flush b f = (None, bufio.mkWriter [] None, f') /\
             wpos f' = (wpos f + length (bufio.buffered b))%nat /\
             same_handle f f'.
Proof.
  intros Herr Hcl Hcap. unfold bufio.Flush. rewrite Herr.
  destruct (Nat.eqb_spec (length (bufio.buffered b)) 0) as [Hz|Hz].
  - exists f. rewrite Hz, Nat.add_0_r.
    apply length_zero_iff_nil in Hz.
    destruct b as [bb be]. simpl in *. subst.
    auto using same_handle_refl.
  - destruct (os_Write_fits f (bufio.buffered b) Hcl Hcap)
      as (f' & HW & Hw & Hs).
    rewrite HW. rewrite Nat.ltb_irrefl.
    exists f'. auto.
Qed.

(** The loop of [Writer.Write] keeps what each of its turns keeps, and
    ends with its condition false. *)
Lemma Write_loop_invariant (P : bufio.loop_state -> Prop) :
  (forall st, P st -> bufio.loop_cond st = true -> P (bufio.loop_body st)) ->
  forall st, P st ->
    P (bufio.Write_loop st) /\
    bufio.loop_cond (bufio.Write_loop st) = false.
Proof.
  intros Hbody st. funelim (bufio.Write_loop st); intros HP.
  - apply H; [assumption|]. apply Hbody; assumption.
  - split; assumption.
Qed.

Lemma firstn_add {A} (a b : nat) (l : list A) :
  firstn (a + b) l = firstn a l ++ firstn b (skipn a l).
Proof.
  revert l. induction a as [|a IH]; intros l; [reflexivity|].
  destruct l as [|x l]; simpl.
  - rewrite firstn_nil. reflexivity.
  - rewrite IH. reflexivity.
Qed.

Lemma skipn_add {A} (a b : nat) (l : list A) :
  skipn b (skipn a l) = skipn (a + b) l.
Proof.
  revert l. induction a as [|a IH]; intros l; [reflexivity|].
  destruct l as [|x l]; simpl.
  - apply skipn_nil.
  - apply IH.
Qed.

(** A failed write of a non-empty slice is a short one. *)
Lemma os_Write_short f b n e f' :
  os.Write f b = (n, Some e, f') -> b <> [] -> (n < length b)%nat.
Proof.
  unfold os.Write. intros H Hne.
  destruct (os.closed f).
  - inversion H; subst. destruct b; [contradiction | simpl; lia].
  - match type of H with context [Nat.min ?a ?c] =>
      set (m := Nat.min a c) in H
    end.
    assert (Hm : m = n) by (inversion H; reflexivity).
    rewrite Hm in H. clear m Hm.
    destruct (Nat.ltb_spec n (length b)); [assumption|].
    inversion H.
Qed.

Lemma consumed_init b f p : consumed b f p (bufio.mkLoop b f p 0).
Proof.
  unfold consumed. simpl. split; [lia|]. split; [reflexivity|]. split.
  - intros Hend. rewrite !app_nil_r. auto using same_handle_refl.
  - intros H1 H2. contradiction.
Qed.

Lemma consumed_body b f p st :
  consumed b f p st -> bufio.loop_cond st = true ->
  consumed b f p (bufio.loop_body st).
Proof.
  intros (Hle & Hlp & Hcont & Hshort) Hc.
  unfold bufio.loop_cond in Hc. apply andb_prop in Hc.
  destruct Hc as [Hlen Herr]. apply Nat.ltb_lt in Hlen.
  assert (Hlplen : length (bufio.lp st) = (length p - bufio.lnn st)%nat)
    by (rewrite Hlp, length_skipn; reflexivity).
  unfold bufio.loop_body.
  destruct (Nat.eqb_spec (length (bufio.buffered (bufio.lw st))) 0)
    as [Hz|Hz].
  - apply length_zero_iff_nil in Hz.
    destruct (os.Write (bufio.lf st) (bufio.lp st)) as [[n e] f'] eqn:HW.
    pose proof (bufio.os_Write_count _ _ _ _ _ HW) as [Hn Hall].
    unfold consumed. simpl.
    split; [lia|]. split; [rewrite Hlp; apply skipn_add|]. split.
    + intros Hend. destruct (Hcont Hend) as (Hd & He & Hs).
      destruct (os_Write_at_end _ _ _ _ _ He HW) as (Hd' & He' & Hs').
      split; [|eauto using same_handle_trans].
      rewrite Hz, app_nil_r in *.
      rewrite Hd', Hd, firstn_add, <- Hlp, <- !app_assoc. reflexivity.
    + intros Hb He. destruct e as [e|]; [|contradiction].
      assert (Hne : bufio.lp st <> [])
        by (destruct (bufio.lp st); simpl in *; [lia | discriminate]).
      pose proof (os_Write_short _ _ _ _ _ HW Hne). lia.
  - set (n := Nat.min _ _).
    assert (Hn : n = bufio.Available (bufio.lw st)) by (unfold n; lia).
    destruct (bufio.Flush _ _) as [[e b2] f'] eqn:HF.
    unfold consumed. simpl.
    split; [lia|]. split; [rewrite Hlp; apply skipn_add|]. split.
    + intros Hend. destruct (Hcont Hend) as (Hd & He & Hs).
      destruct (Flush_content _ _ _ _ _ He HF) as (Hd' & He' & Hs').
      simpl in Hd'.
      split; [|eauto using same_handle_trans].
      rewrite Hd', app_assoc, Hd, firstn_add, <- Hlp, <- !app_assoc.
      reflexivity.
    + intros _ _. lia.
Qed.

(** [Writer.Write]: the count never exceeds [len(p)], equals it exactly
    when no error is returned, and the counted bytes follow the former
    content of the store. *)
Lemma bufio_Write_spec b f p w e b' f' :
  bufio.Write b f p = (w, e, b', f') ->
  (w <= length p)%nat /\
  (e = None -> w = length p) /\
  bufio.err b' = e /\
  (bufio.err b = None -> e <> None -> (w < length p)%nat) /\
  (at_end f ->
   os.data f' ++ bufio.buffered b' =
     os.data f ++ bufio.buffered b ++ firstn w p /\
   at_end f' /\ same_handle f f').
Proof.
  unfold bufio.Write.
  destruct (Write_loop_invariant (consumed b f p) (consumed_body b f p)
              _ (consumed_init b f p)) as [(Hle & Hlp & Hcont & Hshort) Hc].
  set (st := bufio.Write_loop _) in *.
  assert (Hlplen : length (bufio.lp st) = (length p - bufio.lnn st)%nat)
    by (rewrite Hlp, length_skipn; reflexivity).
  destruct (bufio.err (bufio.lw st)) as [e0|] eqn:He.
  - intros H. inversion H; subst. clear H.
    split; [assumption|]. split; [discriminate|]. split; [assumption|].
    split.
    + intros Hb _. apply Hshort; [assumption | discriminate].
    + assumption.
  - unfold bufio.loop_cond in Hc. rewrite He, andb_true_r in Hc.
    apply Nat.ltb_ge in Hc.
    rewrite Nat.min_r by assumption.
    intros H. inversion H; subst. clear H. simpl.
    split; [lia|]. split; [lia|]. split; [reflexivity|]. split.
    + intros _ Hn. contradiction.
    + intros Hend. destruct (Hcont Hend) as (Hd & He' & Hs).
      split; [|auto].
      rewrite app_assoc, Hd, firstn_add, <- Hlp, <- !app_assoc.
      rewrite firstn_all. reflexivity.
Qed.

Lemma skipn_skipn_app {A} (j j' : nat) (X Y : list A) :
  exists j'', skipn j' (skipn j X ++ Y) = skipn j'' (X ++ Y).
Proof.
  destruct (le_lt_dec j (length X)) as [Hle|Hgt].
  - exists (j + j')%nat. rewrite <- skipn_add, (skipn_app j X Y).
    replace (j - length X)%nat with 0%nat by lia. reflexivity.
  - exists (length X + j')%nat.
    rewrite (skipn_all2 X) by lia.
    rewrite <- skipn_add, (skipn_app (length X) X Y), skipn_all,
      Nat.sub_diag.
    reflexivity.
Qed.

(** Bytes leave the buffer from its front only, for the file. *)
Lemma Flush_suffix b f e b' f' :
  bufio.Flush b f = (e, b', f') ->
  exists j, bufio.buffered b' = skipn j (bufio.buffered b).
Proof.
  unfold bufio.Flush. intros H.
  destruct (bufio.err b); [inversion H; subst; exists 0%nat; reflexivity|].
  destruct (length (bufio.buffered b) =? 0)%nat;
    [inversion H; subst; exists 0%nat; reflexivity|].
  destruct (os.Write f (bufio.buffered b)) as [[n e1] f1].
  destruct e1 as [e1|].
  - inversion H; subst. exists n. reflexivity.
  - destruct (n <? length (bufio.buffered b))%nat; inversion H; subst.
    + exists n. reflexivity.
    + exists (length (bufio.buffered b)). rewrite skipn_all. reflexivity.
Qed.

(** After [Writer.Write] the buffer holds what it held and the counted
    bytes of [p], less what has gone to the file from its front: no
    byte handed to the writer is taken back. *)
Lemma bufio_Write_kept b f p w e b' f' :
  bufio.Write b f p = (w, e, b', f') ->
  exists j, bufio.buffered b' = skipn j (bufio.buffered b ++ firstn w p).
Proof.
  unfold bufio.Write.
  destruct (Write_loop_invariant
              (fun st => consumed b f p st /\
                 exists j, bufio.buffered (bufio.lw st) =
                           skipn j (bufio.buffered b
                                      ++ firstn (bufio.lnn st) p))
              ) with (st := bufio.mkLoop b f p 0)
    as [((Hle & Hlp & _) & (j & Hj)) Hc].
  - intros st (Hcons & (j & Hj)) Hc.
    split; [apply consumed_body; assumption|].
    destruct Hcons as (Hle & Hlp & _).
    unfold bufio.loop_body.
    destruct (Nat.eqb_spec (length (bufio.buffered (bufio.lw st))) 0)
      as [Hz|Hz].
    + apply length_zero_iff_nil in Hz.
      destruct (os.Write (bufio.lf st) (bufio.lp st)) as [[n e0] f0].
      cbn [bufio.lw bufio.lnn bufio.buffered]. rewrite Hz.
      eexists. symmetry. apply skipn_all.
    + set (n := Nat.min _ _).
      destruct (bufio.Flush _ _) as [[e0 b2] f0] eqn:HF.
      destruct (Flush_suffix _ _ _ _ _ HF) as (j' & Hj').
      cbn [bufio.lw bufio.lnn bufio.buffered] in *.
      rewrite Hj', Hj, firstn_add, <- Hlp, app_assoc.
      apply skipn_skipn_app.
  - split; [apply consumed_init|].
    exists 0%nat. simpl. rewrite app_nil_r. reflexivity.
  - set (st := bufio.Write_loop _) in *.
    destruct (bufio.err (bufio.lw st)) as [e0|] eqn:He.
    + intros H. inversion H; subst. exists j. assumption.
    + intros H. inversion H; subst. clear H.
      cbn [bufio.buffered].
      rewrite Hj, firstn_add, <- Hlp, app_assoc.
      apply (skipn_skipn_app j 0).
Qed.

Lemma fits_body c t st :
  fits c t st -> bufio.loop_cond st = true -> fits c t (bufio.loop_body st).
Proof.
  intros (Herr & Hcl & Hcap & Ht & Hroom) _. unfold bufio.loop_body.
  destruct (Nat.eqb_spec (length (bufio.buffered (bufio.lw st))) 0)
    as [Hz|Hz].
  - destruct (os_Write_fits (bufio.lf st) (bufio.lp st) Hcl)
      as (f' & HW & Hw & Hs); [lia|].
    rewrite HW.
    destruct Hs as (_ & Hcl' & _ & Hcap').
    unfold fits. cbn [bufio.lw bufio.lf bufio.lp bufio.err bufio.buffered].
    rewrite Hcl', Hcap', Hw, skipn_all. simpl.
    repeat split; try assumption. lia.
  - set (n := Nat.min _ _).
    set (b1 := bufio.mkWriter _ _).
    pose proof (firstn_skipn n (bufio.lp st)) as Hsplit.
    apply (f_equal (@length byte)) in Hsplit. rewrite length_app in Hsplit.
    destruct (Flush_fits b1 (bufio.lf st)) as (f' & HF & Hw & Hs);
      try assumption.
    { unfold b1. simpl. rewrite length_app. lia. }
    rewrite HF.
    destruct Hs as (_ & Hcl' & _ & Hcap').
    unfold fits. cbn [bufio.lw bufio.lf bufio.lp bufio.err bufio.buffered].
    rewrite Hcl', Hcap', Hw. unfold b1. simpl. rewrite !length_app.
    repeat split; try assumption. lia.
Qed.

(** With room in the medium for the buffer and [p], [Writer.Write]
    takes all of [p] and reports no error. *)
Lemma bufio_Write_fits b f p :
  bufio.err b = None -> os.closed f = false ->
  Z.of_nat (wpos f + length (bufio.buffered b) + length p)
    <= os.capacity f ->
  exists b' f',
    bufio.Write b f p = (length p, None, b', f') /\
    bufio.err b' = None /\ os.closed f' = false /\
    os.capacity f' = os.capacity f /\
    (wpos f' + length (bufio.buffered b'))%nat =
      (wpos f + length (bufio.buffered b) + length p)%nat.
Proof.
  intros Herr Hcl Hcap.
  destruct (bufio.Write b f p) as [[[w e] b'] f'] eqn:HW.
  pose proof (bufio_Write_spec _ _ _ _ _ _ _ HW) as (_ & Hall & _).
  unfold bufio.Write in HW.
  destruct (Write_loop_invariant _
              (fits_body (os.capacity f)
                 (wpos f + length (bufio.buffered b) + length p))
              (bufio.mkLoop b f p 0))
    as [(Herr' & Hcl' & Hcap' & Ht & _) Hc].
  { unfold fits. simpl. eauto 6. }
  set (st := bufio.Write_loop _) in *.
  unfold bufio.loop_cond in Hc. rewrite Herr', andb_true_r in Hc.
  apply Nat.ltb_ge in Hc.
  rewrite Herr', Nat.min_r in HW by assumption.
  inversion HW; subst. clear HW.
  rewrite (Hall eq_refl). eexists _, _. split; [reflexivity|].
  cbn [bufio.err bufio.buffered].
  rewrite firstn_all, length_app.
  repeat split; try assumption. simpl in Ht. lia.
Qed.

(** ** Facts on [Append] *)

(** What a call of [Append] returns and leaves, whatever the store:
    on success the count, the position and the new size; on failure the
    zero results and the size as it was; and the first [k] bytes of the
    frame handed to the writer, all of them exactly when the call
    succeeded: they are in the buffer unless they have gone to the file,
    and for a file written at its end the content grew by them. *)
Lemma Append_spec s p n pos e s' :
  Append s p = ((n, pos, e), s') ->
  (e = None ->
   n = uint64 (Z.of_nat (length p) + lenWidth) /\ pos = size s /\
   size s' = uint64 (size s + n)) /\
  (e <> None -> n = 0 /\ pos = 0 /\ size s' = size s) /\
  bufio.err (buf s') = e /\
  exists k,
    (k <= length (frame p))%nat /\
    (e = None -> k = length (frame p)) /\
    (bufio.err (buf s) = None -> e <> None -> (k < length (frame p))%nat) /\
    (exists j, bufio.buffered (buf s') =
               skipn j (bufio.buffered (buf s) ++ firstn k (frame p))) /\
    (at_end (File s) ->
     content s' = content s ++ firstn k (frame p) /\
     at_end (File s') /\ same_handle (File s) (File s')).
Proof.
  unfold Append, binary.Write.
  assert (Hfl : length (frame p) = (8 + length p)%nat) by apply frame_length.
  rewrite !Hfl. clear Hfl. unfold frame.
  remember (enc.PutUint64 _) as prefix eqn:Hp.
  assert (Hlen : length prefix = 8%nat) by (subst prefix; reflexivity).
  clear Hp.
  destruct (bufio.Write (buf s) (File s) prefix) as [[[w1 e1] b1] f1] eqn:HW1.
  pose proof (bufio_Write_spec _ _ _ _ _ _ _ HW1)
    as (Hle1 & Hall1 & Herr1 & Hshort1 & Hcont1).
  destruct (bufio_Write_kept _ _ _ _ _ _ _ HW1) as (j1 & Hj1).
  rewrite Hlen in *.
  destruct e1 as [e1|].
  - intros H. inversion H; subst. clear H. cbn [File buf size].
    split; [discriminate|]. split; [auto|]. split; [assumption|].
    exists w1.
    assert (Hpre : firstn w1 (prefix ++ p) = firstn w1 prefix).
    { rewrite firstn_app, Hlen.
      replace (w1 - 8)%nat with 0%nat by lia.
      simpl. apply app_nil_r. }
    rewrite Hpre.
    split; [lia|]. split; [discriminate|]. split.
    { intros Hb _. specialize (Hshort1 Hb).
      assert (w1 < 8)%nat by (apply Hshort1; discriminate). lia. }
    split; [exists j1; assumption|].
    intros Hend. destruct (Hcont1 Hend) as (Hd & He & Hs).
    unfold content. cbn [File buf]. rewrite Hd, <- app_assoc.
    split; [reflexivity|]. split; assumption.
  - specialize (Hall1 eq_refl). subst w1.
    rewrite (firstn_all2 prefix) in Hj1, Hcont1 by lia.
    destruct (bufio.Write b1 f1 p) as [[[w2 e2] b2] f2] eqn:HW2.
    pose proof (bufio_Write_spec _ _ _ _ _ _ _ HW2)
      as (Hle2 & Hall2 & Herr2 & Hshort2 & Hcont2).
    destruct (bufio_Write_kept _ _ _ _ _ _ _ HW2) as (j2 & Hj2).
    assert (Hpre : firstn (8 + w2) (prefix ++ p) = prefix ++ firstn w2 p).
    { rewrite firstn_app, Hlen.
      replace (8 + w2 - 8)%nat with w2 by lia.
      rewrite (firstn_all2 prefix) by lia. reflexivity. }
    assert (Hkept : exists j, bufio.buffered b2 =
              skipn j (bufio.buffered (buf s)
                         ++ firstn (8 + w2) (prefix ++ p))).
    { rewrite Hpre, app_assoc, Hj2, Hj1. apply skipn_skipn_app. }
    assert (Hgrow : at_end (File s) ->
              content (mkStore f2 b2 (size s)) =
                content s ++ firstn (8 + w2) (prefix ++ p) /\
              at_end f2 /\ same_handle (File s) f2).
    { intros Hend. destruct (Hcont1 Hend) as (Hd1 & He1 & Hs1).
      destruct (Hcont2 He1) as (Hd2 & He2 & Hs2).
      split; [|eauto using same_handle_trans].
      unfold content. cbn [File buf]. rewrite Hd2, app_assoc, Hd1, Hpre.
      rewrite <- !app_assoc. reflexivity. }
    destruct e2 as [e2|].
    + intros H. inversion H; subst. clear H. cbn [File buf size].
      split; [discriminate|]. split; [auto|]. split; [assumption|].
      exists (8 + w2)%nat.
      assert (w2 < length p)%nat
        by (apply Hshort2; [assumption | discriminate]).
      split; [lia|]. split; [discriminate|]. split; [intros; lia|].
      split; assumption.
    + specialize (Hall2 eq_refl). subst w2.
      intros H. inversion H; subst. clear H. cbn [File buf size].
      split; [auto|]. split; [intros Hn; contradiction|].
      split; [assumption|].
      exists (8 + length p)%nat.
      split; [lia|]. split; [reflexivity|].
      split; [intros _ Hn; contradiction|].
      split; assumption.
Qed.

(** On an open file, with no error pending and room in the medium for
    what is buffered and the frame, [Append] succeeds. *)
Lemma Append_fits s p :
  os.closed (File s) = false -> bufio.err (buf s) = None ->
  Z.of_nat (wpos (File s) + length (bufio.buffered (buf s)))
    + lenWidth + Z.of_nat (length p) <= os.capacity (File s) ->
  snd (fst (Append s p)) = None.
Proof.
  intros Hcl Herr Hroom.
  unfold lenWidth in Hroom.
  unfold Append, binary.Write.
  remember (BigEndian.PutUint64 _) as prefix eqn:Hp.
  assert (Hlen : length prefix = 8%nat) by (subst prefix; reflexivity).
  clear Hp.
  destruct (bufio_Write_fits (buf s) (File s) prefix Herr Hcl)
    as (b1 & f1 & HW1 & Herr1 & Hcl1 & Hcap1 & Ht1); [lia|].
  rewrite HW1.
  destruct (bufio_Write_fits b1 f1 p Herr1 Hcl1)
    as (b2 & f2 & HW2 & _); [lia|].
  rewrite HW2. reflexivity.
Qed.

Lemma Append_ok s p :
  store_ok s ->
  size s + lenWidth + Z.of_nat (length p) <= os.capacity (File s) ->
  exists s',
    Append s p = ((lenWidth + Z.of_nat (length p), size s, None), s') /\
    store_ok s' /\ content s' = content s ++ frame p /\
    same_handle (File s) (File s').
Proof.
  intros [Hcl Herr Hend Hsize Hcap] Hroom.
  assert (Hnone : snd (fst (Append s p)) = None).
  { apply Append_fits; try assumption.
    rewrite (at_end_wpos _ Hend).
    unfold content in Hsize. rewrite length_app in Hsize. lia. }
  destruct (Append s p) as [[[n pos] e] s'] eqn:HA.
  simpl in Hnone. subst e.
  pose proof (Append_spec _ _ _ _ _ _ HA)
    as (Hs & _ & Herr' & (k & _ & Hk & _ & _ & Hcont)).
  destruct (Hs eq_refl) as (Hn & Hpos & Hsz).
  destruct (Hcont Hend) as (Hc & Hend' & Hsame).
  rewrite (Hk eq_refl), firstn_all in Hc.
  pose proof Hsame as (_ & Hcl' & _ & Hcap').
  assert (Hnn : 0 <= size s) by lia.
  unfold lenWidth in *.
  rewrite uint64_small in Hn by lia.
  rewrite uint64_small in Hsz by lia.
  exists s'. subst n pos.
  split; [f_equal; f_equal; f_equal; lia|].
  split; [|auto].
  constructor; try congruence.
  rewrite Hsz, Hc, Hsize, !length_app, frame_length. lia.
Qed.

(** ** Facts on the read paths *)

(** [File.ReadAt] either fills the whole buffer with the file's bytes
    at [off], or reports an error. *)
Lemma os_ReadAt_spec f b off b' n e :
  os.ReadAt f b off = (b', n, e) ->
  length b' = length b /\ (n <= length b)%nat /\
  (e = None ->
   n = length b /\ 0 <= off /\
   b' = firstn (length b) (skipn (Z.to_nat off) (os.data f))).
Proof.
  unfold os.ReadAt. intros H.
  destruct (Z.ltb_spec off 0) as [Hneg|Hpos].
  { inversion H; subst. split; [reflexivity|]. split; [lia | discriminate]. }
  destruct (Nat.eqb_spec (length b) 0) as [Hz|Hnz].
  { inversion H; subst. split; [reflexivity|]. split; [lia|].
    intros _. split; [symmetry; assumption|]. split; [assumption|].
    rewrite Hz. apply length_zero_iff_nil in Hz. subst. reflexivity. }
  destruct (os.closed f).
  { inversion H; subst. split; [reflexivity|]. split; [lia | discriminate]. }
  set (got := firstn (length b) (skipn (Z.to_nat off) (os.data f))) in *.
  assert (Hgot : (length got <= length b)%nat)
    by (unfold got; rewrite length_firstn; lia).
  inversion H; subst. clear H.
  split; [rewrite length_app, length_skipn; lia|]. split; [assumption|].
  destruct (Nat.ltb_spec (length got) (length b)) as [Hlt|Hge];
    [discriminate|].
  intros _. split; [lia|]. split; [assumption|].
  rewrite skipn_all2 by lia. apply app_nil_r.
Qed.

(** Reading a stretch of the file into a buffer of its length. *)
Lemma os_ReadAt_exact f b pre mid post :
  os.closed f = false ->
  os.data f = pre ++ mid ++ post ->
  length b = length mid ->
  os.ReadAt f b (Z.of_nat (length pre)) = (mid, length mid, None).
Proof.
  intros Hcl Hd Hb. unfold os.ReadAt. rewrite Hcl.
  destruct (Z.ltb_spec (Z.of_nat (length pre)) 0) as [Hneg|_]; [lia|].
  destruct (Nat.eqb_spec (length b) 0) as [Hz|_].
  { rewrite Hz in Hb. symmetry in Hb.
    apply length_zero_iff_nil in Hz, Hb. subst. reflexivity. }
  rewrite Nat2Z.id, Hd, Hb.
  rewrite skipn_app, skipn_all, Nat.sub_diag. simpl.
  rewrite firstn_app, firstn_all, Nat.sub_diag. simpl.
  rewrite !app_nil_r, Nat.ltb_irrefl.
  rewrite <- Hb, skipn_all. rewrite app_nil_r, Hb. reflexivity.
Qed.

(** A slice's length survives the trip through the prefix. *)
Lemma frame_prefix_decodes p :
  is_slice p ->
  BigEndian.Uint64 (BigEndian.PutUint64 (uint64 (Z.of_nat (length p))))
  = Some (Z.of_nat (length p)).
Proof.
  intros Hp. unfold is_slice in Hp. rewrite maxAlloc_val in Hp.
  rewrite uint64_small by lia. apply Uint64_PutUint64. lia.
Qed.

(** [Read], once the flush has succeeded, at the offset of a frame of
    the file: the frame's payload. *)
Lemma Read_after_flush s b1 f1 pre p post :
  bufio.Flush (buf s) (File s) = (None, b1, f1) ->
  os.closed f1 = false ->
  os.data f1 = pre ++ frame p ++ post ->
  Z.of_nat (length (os.data f1)) < 2 ^ 63 ->
  is_slice p ->
  Read s (Z.of_nat (length pre)) = (ReadOk p, mkStore f1 b1 (size s)).
Proof.
  intros HF Hcl Hd Hlen Hp.
  assert (Hlens : length (os.data f1) =
                  (length pre + (8 + length p) + length post)%nat).
  { rewrite Hd, !length_app, frame_length. lia. }
  unfold Read. rewrite HF.
  rewrite int64_small by lia.
  assert (Hd1 : os.data f1 =
            pre ++ BigEndian.PutUint64 (uint64 (Z.of_nat (length p)))
                ++ (p ++ post)).
  { rewrite Hd. unfold frame. rewrite <- !app_assoc. reflexivity. }
  rewrite (os_ReadAt_exact f1 _ pre _ _ Hcl Hd1) by reflexivity.
  rewrite (frame_prefix_decodes p Hp).
  destruct (Z.ltb_spec maxAlloc (Z.of_nat (length p))) as [Hbig|_];
    [unfold is_slice in Hp; lia|].
  unfold lenWidth. rewrite uint64_small by lia.
  rewrite int64_small by lia.
  assert (Hd2 : os.data f1 =
            (pre ++ BigEndian.PutUint64 (uint64 (Z.of_nat (length p))))
              ++ p ++ post).
  { rewrite Hd1. rewrite <- !app_assoc. reflexivity. }
  replace (Z.of_nat (length pre) + 8) with
    (Z.of_nat (length (pre ++ BigEndian.PutUint64
                                (uint64 (Z.of_nat (length p))))))
    by (rewrite length_app; simpl; lia).
  rewrite (os_ReadAt_exact f1 _ _ p post Hcl Hd2)
    by (rewrite repeat_length; apply Nat2Z.id).
  reflexivity.
Qed.

(** On a store with nothing buffered, [Flush] has nothing to do. *)
Lemma Flush_settled f : bufio.Flush bufio.NewWriter f
                        = (None, bufio.NewWriter, f).
Proof. reflexivity. Qed.

(** [Read] at the position of a frame of the content returns the
    frame's payload, and leaves the content wholly in the file. *)
Lemma Read_frame s pre p post :
  store_ok s -> is_slice p ->
  content s = pre ++ frame p ++ post ->
  size s <= os.capacity (File s) ->
  exists s',
    Read s (Z.of_nat (length pre)) = (ReadOk p, s') /\
    store_ok s' /\ content s' = content s /\
    buf s' = bufio.NewWriter /\ size s' = size s /\
    same_handle (File s) (File s').
Proof.
  intros [Hcl Herr Hend Hsize Hcap] Hp Hc Hroom.
  pose proof Hsize as Hsize'.
  unfold content in Hsize'. rewrite length_app in Hsize'.
  destruct (Flush_fits (buf s) (File s) Herr Hcl)
    as (f1 & HF & _ & _); [rewrite (at_end_wpos _ Hend); lia|].
  destruct (Flush_content _ _ _ _ _ Hend HF) as (Hd & Hend1 & Hsame).
  pose proof Hsame as (_ & Hcl1 & _ & Hcap1).
  cbn [bufio.buffered] in Hd. rewrite app_nil_r in Hd.
  fold (content s) in Hd.
  exists (mkStore f1 (bufio.mkWriter [] None) (size s)).
  split.
  - apply (Read_after_flush s _ f1 pre p post); try congruence.
    rewrite Hd. lia.
  - unfold content. cbn [File buf size bufio.buffered].
    rewrite app_nil_r.
    split; [|auto].
    constructor; cbn [File buf size bufio.err]; try congruence.
    unfold content. cbn [File buf bufio.buffered].
    rewrite app_nil_r, Hd. assumption.
Qed.

(** [Close] on a store in working order, with room in the medium for
    what is buffered: the whole content is in the file, which is
    closed. *)
Lemma Close_ok s :
  store_ok s -> size s <= os.capacity (File s) ->
  exists s',
    Close s = (None, s') /\ os.data (File s') = content s /\
    os.closed (File s') = true /\
    os.linked (File s') = os.linked (File s) /\
    os.capacity (File s') = os.capacity (File s) /\
    size s' = size s.
Proof.
  intros [Hcl Herr Hend Hsize Hcap] Hroom.
  unfold content in Hsize. rewrite length_app in Hsize.
  destruct (Flush_fits (buf s) (File s) Herr Hcl)
    as (f1 & HF & _ & _); [rewrite (at_end_wpos _ Hend); lia|].
  destruct (Flush_content _ _ _ _ _ Hend HF)
    as (Hd & Hend1 & (_ & Hcl1 & Hl1 & Hcap1)).
  cbn [bufio.buffered] in Hd. rewrite app_nil_r in Hd.
  unfold Close. rewrite HF. unfold os.Close.
  rewrite Hcl1, Hcl. eexists. split; [reflexivity|].
  cbn [File size os.data os.closed os.linked os.capacity].
  auto.
Qed.

(** [newStore] on a handle whose name resolves. *)
Lemma newStore_linked f :
  os.linked f = true ->
  newStore f =
  inl (mkStore f bufio.NewWriter (uint64 (Z.of_nat (length (os.data f))))).
Proof. intros Hl. unfold newStore, os.Stat. rewrite Hl. reflexivity. Qed.

(** The store that [newStore] makes of an open handle at the end of its
    file is in working order. *)
Lemma newStore_ok f :
  os.linked f = true -> os.closed f = false -> at_end f ->
  Z.of_nat (length (os.data f)) <= os.capacity f ->
  os.capacity f < 2 ^ 63 ->
  exists s, newStore f = inl s /\ store_ok s /\ File s = f /\
            buf s = bufio.NewWriter /\
            size s = Z.of_nat (length (os.data f)).
Proof.
  intros Hl Hcl Hend Hlen Hcap.
  rewrite (newStore_linked f Hl), uint64_small by lia.
  eexists. split; [reflexivity|].
  cbn [File buf size]. split; [|auto].
  constructor; cbn [File buf size bufio.err bufio.NewWriter];
    try assumption; try reflexivity.
  unfold content. cbn [File buf bufio.buffered bufio.NewWriter].
  rewrite app_nil_r. reflexivity.
Qed.

(** ** Facts on sequences of appends *)

Lemma footprint_nonneg ps : 0 <= footprint ps.
Proof. induction ps; cbn [footprint]; unfold lenWidth; lia. Qed.

Lemma footprint_frames ps : footprint ps = Z.of_nat (length (frames ps)).
Proof.
  unfold frames. induction ps as [|p ps IH]; [reflexivity|].
  cbn [footprint map concat].
  rewrite length_app, frame_length, IH. unfold lenWidth. lia.
Qed.

Lemma expected_length z ps : length (expected z ps) = length ps.
Proof. revert z. induction ps; intros z; simpl; auto. Qed.

Lemma expected_succeeded z ps : Forall succeeded (expected z ps).
Proof.
  revert z. induction ps; intros z; simpl; constructor; auto.
  reflexivity.
Qed.

(** Successful appends return the expected counts and positions. *)
Lemma appends_spec ps : forall s rs s',
  appends s ps = (rs, s') -> Forall succeeded rs ->
  0 <= size s -> size s + footprint ps < 2 ^ 64 ->
  rs = expected (size s) ps /\ size s' = size s + footprint ps.
Proof.
  induction ps as [|p ps IH]; intros s rs s' H Hall Hnn Hroom.
  - inversion H; subst. simpl. split; [reflexivity | lia].
  - cbn [appends footprint] in H, Hroom.
    pose proof (footprint_nonneg ps) as Hfp.
    destruct (Append s p) as [[[n pos] e] s1] eqn:HA.
    destruct (appends s1 ps) as [rs1 s2] eqn:HAs.
    inversion H; subst. clear H.
    inversion Hall as [|r rs' Hr Hrs]; subst.
    unfold succeeded in Hr. simpl in Hr. subst e.
    pose proof (Append_spec _ _ _ _ _ _ HA) as (Hs & _).
    destruct (Hs eq_refl) as (Hn & Hpos & Hsz).
    unfold lenWidth in *.
    rewrite uint64_small in Hn by lia.
    rewrite uint64_small in Hsz by lia.
    destruct (IH s1 rs1 s' HAs Hrs) as (Hrs1 & Hsz'); try lia.
    subst. cbn [expected footprint]. unfold lenWidth. split; [|lia].
    f_equal; [f_equal; f_equal; lia|].
    f_equal. lia.
Qed.

(** On a file written at its end, successful appends add their frames
    to the content, in order. *)
Lemma appends_content ps : forall s rs s',
  appends s ps = (rs, s') -> Forall succeeded rs -> at_end (File s) ->
  content s' = content s ++ frames ps /\
  at_end (File s') /\ same_handle (File s) (File s').
Proof.
  induction ps as [|p ps IH]; intros s rs s' H Hall Hend.
  - inversion H; subst. unfold frames. simpl. rewrite app_nil_r.
    auto using same_handle_refl.
  - simpl in H.
    destruct (Append s p) as [[[n pos] e] s1] eqn:HA.
    destruct (appends s1 ps) as [rs1 s2] eqn:HAs.
    inversion H; subst. clear H.
    inversion Hall as [|r rs' Hr Hrs]; subst.
    unfold succeeded in Hr. simpl in Hr. subst e.
    pose proof (Append_spec _ _ _ _ _ _ HA)
      as (_ & _ & _ & (k & _ & Hk & _ & _ & Hcont)).
    destruct (Hcont Hend) as (Hc & Hend1 & Hs1).
    rewrite (Hk eq_refl), firstn_all in Hc.
    destruct (IH s1 rs1 s' HAs Hrs Hend1) as (Hc' & Hend' & Hs').
    split; [|eauto using same_handle_trans].
    rewrite Hc', Hc. unfold frames. simpl.
    rewrite <- app_assoc. reflexivity.
Qed.

(** On a store in working order with room for all of them, a sequence
    of appends succeeds. *)
Lemma appends_ok ps : forall s,
  store_ok s -> size s + footprint ps <= os.capacity (File s) ->
  exists s',
    appends s ps = (expected (size s) ps, s') /\ store_ok s' /\
    content s' = content s ++ frames ps /\
    same_handle (File s) (File s').
Proof.
  induction ps as [|p ps IH]; intros s Hok Hroom.
  - exists s. unfold frames. simpl. rewrite app_nil_r.
    auto using same_handle_refl.
  - cbn [footprint] in Hroom. pose proof (footprint_nonneg ps) as Hfp.
    destruct (Append_ok s p Hok) as (s1 & HA & Hok1 & Hc1 & Hs1); [lia|].
    pose proof Hs1 as (_ & _ & _ & Hcap1).
    assert (Hsz1 : size s1 = size s + (lenWidth + Z.of_nat (length p))).
    { rewrite (ok_size _ Hok1), (ok_size _ Hok), Hc1, length_app,
        frame_length. unfold lenWidth. lia. }
    destruct (IH s1 Hok1) as (s' & HAs & Hok' & Hc' & Hs'); [lia|].
    exists s'. cbn [appends expected]. rewrite HA, HAs, Hsz1.
    split; [reflexivity|]. split; [assumption|].
    split; [|eauto using same_handle_trans].
    rewrite Hc', Hc1. unfold frames. simpl.
    rewrite <- app_assoc. reflexivity.
Qed.

(** Positions in [expected]: each is the one before plus the footprint
    of the record before. *)
Lemma expected_next ps : forall z i d,
  (S i < length ps)%nat ->
  position (nth (S i) (expected z ps) d) =
  position (nth i (expected z ps) d)
    + lenWidth + Z.of_nat (length (nth i ps [])).
Proof.
  induction ps as [|p ps IH]; intros z i d Hi; simpl in Hi; [lia|].
  destruct i as [|i].
  - destruct ps as [|q ps]; simpl in Hi; [lia|].
    unfold position. cbn [expected nth fst snd]. lia.
  - change (expected z (p :: ps)) with
      ((lenWidth + Z.of_nat (length p), z, None)
         :: expected (z + (lenWidth + Z.of_nat (length p))) ps).
    cbn [nth]. apply IH. lia.
Qed.

Lemma expected_lower z ps :
  Forall (fun x => z <= x) (map position (expected z ps)).
Proof.
  revert z. induction ps as [|p ps IH]; intros z;
    cbn [expected map]; constructor.
  - unfold position. cbn [fst snd]. lia.
  - eapply Forall_impl; [|apply IH].
    unfold lenWidth. cbn beta. intros x Hx. lia.
Qed.

Lemma expected_sorted z ps :
  StronglySorted Z.lt (map position (expected z ps)).
Proof.
  revert z. induction ps as [|p ps IH]; intros z;
    cbn [expected map]; constructor.
  - apply IH.
  - eapply Forall_impl; [|apply expected_lower].
    unfold position, lenWidth. cbn [fst snd]. intros x Hx. lia.
Qed.

Lemma sorted_NoDup (l : list Z) : StronglySorted Z.lt l -> NoDup l.
Proof.
  induction 1 as [|x l Hs IH Hall]; constructor; [|assumption].
  intros Hin. rewrite Forall_forall in Hall.
  specialize (Hall x Hin). lia.
Qed.

(** Where the [i]-th record of a sequence lies. *)
Lemma expected_position ps : forall z i d,
  (i < length ps)%nat ->
  position (nth i (expected z ps) d) = z + footprint (firstn i ps).
Proof.
  induction ps as [|p ps IH]; intros z i d Hi; simpl in Hi; [lia|].
  destruct i as [|i].
  - unfold position. cbn [expected nth fst snd firstn footprint]. lia.
  - cbn [expected nth firstn footprint]. rewrite IH by lia. lia.
Qed.

Lemma frames_app ps qs : frames (ps ++ qs) = frames ps ++ frames qs.
Proof. unfold frames. rewrite map_app, concat_app. reflexivity. Qed.

Lemma frames_split ps i :
  (i < length ps)%nat ->
  frames ps = frames (firstn i ps) ++ frame (nth i ps [])
                ++ frames (skipn (S i) ps).
Proof.
  intros Hi.
  rewrite <- (firstn_skipn i ps) at 1. rewrite frames_app. f_equal.
  assert (Hs : skipn i ps = nth i ps [] :: skipn (S i) ps).
  { revert i Hi. induction ps as [|p ps IH]; intros i Hi;
      simpl in Hi; [lia|].
    destruct i as [|i]; [reflexivity|]. simpl. apply IH. lia. }
  rewrite Hs. unfold frames. reflexivity.
Qed.

(** ** What the calls that flush leave *)

(** The store after [Read], [ReadAt] and [Close] is the store after the
    flush they start with; [Close] then marks the handle closed. *)
Lemma Read_store s pos :
  snd (Read s pos) =
  let '(_, b1, f1) := bufio.Flush (buf s) (File s) in mkStore f1 b1 (size s).
Proof.
  unfold Read.
  destruct (bufio.Flush (buf s) (File s)) as [[e b1] f1].
  destruct e; [reflexivity|].
  destruct (os.ReadAt f1 _ _) as [[sb k] e]. destruct e; [reflexivity|].
  destruct (BigEndian.Uint64 sb) as [n|]; [|reflexivity].
  destruct (maxAlloc <? n); [reflexivity|].
  destruct (os.ReadAt f1 _ _) as [[b k'] e]. destruct e; reflexivity.
Qed.

Lemma ReadAt_store s p off :
  snd (ReadAt s p off) =
  let '(_, b1, f1) := bufio.Flush (buf s) (File s) in mkStore f1 b1 (size s).
Proof.
  unfold ReadAt.
  destruct (bufio.Flush (buf s) (File s)) as [[e b1] f1].
  destruct e; reflexivity.
Qed.

Lemma Close_store s :
  let '(_, b1, f1) := bufio.Flush (buf s) (File s) in
  buf (snd (Close s)) = b1 /\ size (snd (Close s)) = size s /\
  os.data (File (snd (Close s))) = os.data f1 /\
  os.linked (File (snd (Close s))) = os.linked f1 /\
  os.capacity (File (snd (Close s))) = os.capacity f1.
Proof.
  unfold Close.
  destruct (bufio.Flush (buf s) (File s)) as [[e b1] f1].
  destruct e; [simpl; auto|].
  unfold os.Close. destruct (os.closed f1); simpl; auto.
Qed.

(** After a call that flushes, with no error pending, the buffer is
    empty and the file written at its end holds the whole content. *)
Lemma flush_step s o :
  flushes o -> bufio.err (buf (step s o)) = None ->
  bufio.buffered (buf (step s o)) = [] /\ size (step s o) = size s /\
  (at_end (File s) ->
   os.data (File (step s o)) = content s /\
   os.linked (File (step s o)) = os.linked (File s) /\
   os.capacity (File (step s o)) = os.capacity (File s)).
Proof.
  intros Hfl Herr.
  assert (Hflush : forall e b1 f1,
            bufio.Flush (buf s) (File s) = (e, b1, f1) ->
            bufio.err b1 = None ->
            bufio.buffered b1 = [] /\
            (at_end (File s) ->
             os.data f1 = content s /\
             os.linked f1 = os.linked (File s) /\
             os.capacity f1 = os.capacity (File s))).
  { intros e b1 f1 HF Hb1.
    pose proof (bufio.Flush_outcome _ _ _ _ _ HF) as [He Hnil].
    assert (He' : e = None) by congruence.
    destruct (Hnil He') as [_ Hnil']. split; [assumption|].
    intros Hend.
    destruct (Flush_content _ _ _ _ _ Hend HF) as (Hd & _ & Hs).
    rewrite Hnil', app_nil_r in Hd.
    destruct Hs as (_ & _ & Hl & Hc). auto. }
  destruct o as [p|pos|p off|]; [contradiction| | |]; cbn [step] in *.
  - rewrite Read_store in *.
    destruct (bufio.Flush (buf s) (File s)) as [[e b1] f1] eqn:HF.
    destruct (Hflush _ _ _ eq_refl Herr) as [Hnil Hd]. auto.
  - rewrite ReadAt_store in *.
    destruct (bufio.Flush (buf s) (File s)) as [[e b1] f1] eqn:HF.
    destruct (Hflush _ _ _ eq_refl Herr) as [Hnil Hd]. auto.
  - pose proof (Close_store s) as HC.
    destruct (bufio.Flush (buf s) (File s)) as [[e b1] f1] eqn:HF.
    destruct HC as (Hb & Hsz & Hd & Hl & Hc).
    rewrite Hb in Herr.
    destruct (Hflush _ _ _ eq_refl Herr) as [Hnil Hd'].
    rewrite Hb, Hd, Hl, Hc. auto.
Qed.

(** The content of the store [newStore] makes is the file's. *)
Lemma newStore_content f s :
  newStore f = inl s ->
  File s = f /\ buf s = bufio.NewWriter /\ content s = os.data f /\
  size s = uint64 (Z.of_nat (length (os.data f))) /\ os.linked f = true.
Proof.
  unfold newStore, os.Stat. destruct (os.linked f); [|discriminate].
  intros H. inversion H; subst. unfold content. simpl.
  rewrite app_nil_r. auto.
Qed.

(** The frame format: eight bytes that decode to the payload's length,
    then the payload and nothing else. *)
Lemma frame_format p :
  length (frame p) = (8 + length p)%nat /\
  skipn 8 (frame p) = p /\
  (is_slice p ->
   BigEndian.Uint64 (firstn 8 (frame p)) = Some (Z.of_nat (length p))).
Proof.
  split; [apply frame_length|]. split; [reflexivity|].
  intros Hp. rewrite <- (frame_prefix_decodes p Hp). reflexivity.
Qed.

(** ** The size along a run of calls *)

(** The size after one call: unchanged unless the call is an [Append],
    and then at most the footprint of the record more. *)
Lemma step_size s o :
  0 <= size s -> size s + appended [o] < 2 ^ 64 ->
  size s <= size (step s o) <= size s + appended [o].
Proof.
  intros Hnn Hroom.
  destruct o as [p|pos|p off|]; cbn [step appended] in *.
  - destruct (Append s p) as [[[n pos] e] s'] eqn:HA.
    pose proof (Append_spec _ _ _ _ _ _ HA) as (Hs & Hf & _).
    cbn [snd]. unfold lenWidth in *.
    destruct e as [e|].
    + destruct Hf as (_ & _ & Hsz); [discriminate|]. lia.
    + destruct (Hs eq_refl) as (Hn & _ & Hsz).
      rewrite uint64_small in Hn by lia.
      rewrite uint64_small in Hsz by lia. lia.
  - rewrite Read_store.
    destruct (bufio.Flush _ _) as [[e b1] f1]. simpl. lia.
  - rewrite ReadAt_store.
    destruct (bufio.Flush _ _) as [[e b1] f1]. simpl. lia.
  - pose proof (Close_store s) as HC.
    destruct (bufio.Flush _ _) as [[e b1] f1].
    destruct HC as (_ & Hsz & _). lia.
Qed.

Lemma appended_nonneg ops : 0 <= appended ops.
Proof.
  induction ops as [|o ops IH]; [reflexivity|].
  destruct o; cbn [appended]; unfold lenWidth; lia.
Qed.

Lemma appended_cons o ops : appended (o :: ops) = appended [o] + appended ops.
Proof. destruct o; cbn [appended]; lia. Qed.

Lemma run_size ops : forall s,
  0 <= size s -> size s + appended ops < 2 ^ 64 ->
  size s <= size (run s ops) <= size s + appended ops.
Proof.
  induction ops as [|o ops IH]; intros s Hnn Hroom.
  - simpl. lia.
  - rewrite appended_cons in *.
    pose proof (appended_nonneg ops) as Hops.
    pose proof (appended_nonneg [o]) as Ho.
    pose proof (step_size s o Hnn ltac:(lia)) as Hstep.
    specialize (IH (step s o) ltac:(lia) ltac:(lia)).
    change (run s (o :: ops)) with (run (step s o) ops). lia.
Qed.

(** ** The worked inputs *)

Lemma newStore_tmp : newStore tmp = inl fresh.
Proof. reflexivity. Qed.

Lemma fresh_ok : store_ok fresh.
Proof.
  constructor; try reflexivity.
  right. reflexivity.
Defined.

(** ** The claims *)

(** C1. For every payload [p], the empty one included, appending [p] to
    a store in working order and then calling [Read] at the position
    that [Append] returned, on the same store and with no flush in
    between, returns exactly [p]: both calls succeed, although the
    record may still be in the write buffer when [Read] is called. *)
Theorem Append_Read_roundtrip s p :
  store_ok s -> is_slice p ->
  size s + lenWidth + Z.of_nat (length p) <= os.capacity (File s) ->
  exists r s1 s2,
    Append s p = (r, s1) /\ succeeded r /\
    Read s1 (position r) = (ReadOk p, s2).
Proof.
  intros Hok Hp Hroom.
  destruct (Append_ok s p Hok Hroom)
    as (s1 & HA & Hok1 & Hc1 & (_ & _ & _ & Hcap1)).
  assert (Hsz1 : size s1 = size s + lenWidth + Z.of_nat (length p)).
  { rewrite (ok_size _ Hok1), (ok_size _ Hok), Hc1, length_app,
      frame_length. unfold lenWidth. lia. }
  destruct (Read_frame s1 (content s) p [] Hok1 Hp) as (s2 & HR & _).
  { rewrite app_nil_r. assumption. }
  { lia. }
  eexists _, s1, s2. split; [exact HA|]. split; [reflexivity|].
  unfold position. cbn [fst snd]. rewrite (ok_size _ Hok). exact HR.
Qed.

Lemma Append_Read_roundtrip_witness :
  store_ok fresh /\ is_slice hello /\
  size fresh + lenWidth + Z.of_nat (length hello)
    <= os.capacity (File fresh) /\
  exists r s1 s2,
    Append fresh hello = (r, s1) /\ succeeded r /\
    Read s1 (position r) = (ReadOk hello, s2).
Proof.
  assert (H1 : store_ok fresh) by exact fresh_ok.
  assert (H2 : is_slice hello) by (vm_compute; discriminate).
  assert (H3 : size fresh + lenWidth + Z.of_nat (length hello)
               <= os.capacity (File fresh)) by (vm_compute; discriminate).
  split; [exact H1|]. split; [exact H2|]. split; [exact H3|].
  exact (Append_Read_roundtrip fresh hello H1 H2 H3).
Defined.

(** The empty payload and a record larger than the write buffer, on the
    new store. *)
Example Append_Read_empty :
  fst (Read (snd (Append fresh [])) 0) = ReadOk [].
Proof. vm_compute. reflexivity. Qed.

Example Append_Read_large :
  fst (Read (snd (Append fresh (repeat x2a 5000))) 0)
  = ReadOk (repeat x2a 5000).
Proof. vm_compute. reflexivity. Qed.

(** C2. A successful [Append] of [p] returns [8 + len(p)] as the count
    of bytes written and the size before the call as the position, and
    it advances the size by that count (sizes being [uint64] values,
    while the new size is one). *)
Theorem Append_returns s p n pos s' :
  Append s p = ((n, pos, None), s') ->
  0 <= size s -> size s + lenWidth + Z.of_nat (length p) < 2 ^ 64 ->
  n = lenWidth + Z.of_nat (length p) /\ pos = size s /\
  size s' = size s + n.
Proof.
  intros HA Hnn Hroom.
  pose proof (Append_spec _ _ _ _ _ _ HA) as (Hs & _).
  destruct (Hs eq_refl) as (Hn & Hpos & Hsz).
  unfold lenWidth in *.
  rewrite uint64_small in Hn by lia.
  rewrite uint64_small in Hsz by lia.
  split; [lia|]. split; assumption.
Qed.

Lemma Append_returns_witness :
  Append after_hello world = ((14, 13, None), snd (Append after_hello world))
  /\ 0 <= size after_hello
  /\ size after_hello + lenWidth + Z.of_nat (length world) < 2 ^ 64
  /\ 14 = lenWidth + Z.of_nat (length world) /\ 13 = size after_hello
  /\ size (snd (Append after_hello world)) = size after_hello + 14.
Proof.
  assert (H1 : Append after_hello world =
               ((14, 13, None), snd (Append after_hello world)))
    by (vm_compute; reflexivity).
  assert (H2 : 0 <= size after_hello) by (vm_compute; discriminate).
  assert (H3 : size after_hello + lenWidth + Z.of_nat (length world)
               < 2 ^ 64) by (vm_compute; reflexivity).
  split; [exact H1|]. split; [exact H2|]. split; [exact H3|].
  exact (Append_returns after_hello world 14 13 _ H1 H2 H3).
Defined.

(** C3. For every sequence of successful appends on a store whose size
    is 0, the position returned for a record is the position returned
    for the record before plus 8 plus that record's length, the first
    position being 0; the positions are strictly increasing and no two
    are equal. *)
Theorem positions_advance s ps rs s' :
  size s = 0 ->
  appends s ps = (rs, s') -> Forall succeeded rs ->
  footprint ps < 2 ^ 64 ->
  (forall i d, (S i < length ps)%nat ->
     position (nth (S i) rs d) =
     position (nth i rs d) + 8 + Z.of_nat (length (nth i ps []))) /\
  (forall d, ps <> [] -> position (nth 0 rs d) = 0) /\
  StronglySorted Z.lt (map position rs) /\
  NoDup (map position rs).
Proof.
  intros Hz HA Hall Hroom.
  destruct (appends_spec ps s rs s' HA Hall) as (Hrs & _); try lia.
  subst rs. rewrite Hz.
  split; [intros i d Hi; apply expected_next; assumption|].
  split.
  - intros d Hne. destruct ps as [|p ps]; [contradiction|]. reflexivity.
  - split; [apply expected_sorted|].
    apply sorted_NoDup, expected_sorted.
Qed.

Lemma positions_advance_witness :
  size fresh = 0 /\
  appends fresh [hello; world; bang] =
    ([(13, 0, None); (14, 13, None); (9, 27, None)],
     snd (appends fresh [hello; world; bang])) /\
  Forall succeeded [(13, 0, None); (14, 13, None); (9, 27, None)] /\
  footprint [hello; world; bang] < 2 ^ 64 /\
  StronglySorted Z.lt
    (map position [(13, 0, None); (14, 13, None); (9, 27, None)]).
Proof.
  assert (H1 : size fresh = 0) by reflexivity.
  assert (H2 : appends fresh [hello; world; bang] =
                 ([(13, 0, None); (14, 13, None); (9, 27, None)],
                  snd (appends fresh [hello; world; bang])))
    by (vm_compute; reflexivity).
  assert (H3 : Forall succeeded
                 [(13, 0, None); (14, 13, None); (9, 27, None)])
    by (repeat constructor).
  assert (H4 : footprint [hello; world; bang] < 2 ^ 64)
    by (vm_compute; reflexivity).
  split; [exact H1|]. split; [exact H2|]. split; [exact H3|].
  split; [exact H4|].
  exact (proj1 (proj2 (proj2
           (positions_advance fresh _ _ _ H1 H2 H3 H4)))).
Defined.

(** C4, as amended.  [newStore] takes the file's length as the initial
    size, and does not move the handle's offset.  So, after [p1] is
    appended to a new store on an empty file and the store is closed, a
    store made of a new handle on the same file, with or without
    O_APPEND, has the length of the file as its size, returns [p1] from
    [Read] at the position of [p1], and returns [8 + len(p1)] as the
    position of the next [Append].  When the new handle was opened with
    O_APPEND there is no truncation, duplicate write or gap: both
    records are then read back at their positions and the file holds
    the two frames one after the other.  (Without O_APPEND the next
    record is written from offset 0, over the first.) *)
Theorem restart_recovery f p1 p2 append :
  os.data f = [] -> at_end f ->
  os.closed f = false -> os.linked f = true ->
  os.capacity f < 2 ^ 63 ->
  is_slice p1 ->
  footprint [p1; p2] <= os.capacity f ->
  exists s0 s1 s2 s3 s4 s5,
    newStore f = inl s0 /\
    Append s0 p1 = ((lenWidth + Z.of_nat (length p1), 0, None), s1) /\
    Close s1 = (None, s2) /\
    newStore (os.reopen (File s2) append) = inl s3 /\
    size s3 = Z.of_nat (length (os.data (File s2))) /\
    Read s3 0 = (ReadOk p1, s4) /\
    Append s4 p2 =
      ((lenWidth + Z.of_nat (length p2),
        lenWidth + Z.of_nat (length p1), None), s5) /\
    (append = true -> is_slice p2 ->
     exists s6 s7 s8,
       Read s5 0 = (ReadOk p1, s6) /\
       Read s6 (lenWidth + Z.of_nat (length p1)) = (ReadOk p2, s7) /\
       Close s7 = (None, s8) /\
       os.data (File s8) = frame p1 ++ frame p2).
Proof.
  intros Hd Hend Hcl Hl Hcap Hp1 Hroom.
  cbn [footprint] in Hroom. unfold lenWidth in *.
  (* the first life of the file *)
  destruct (newStore_ok f Hl Hcl Hend) as (s0 & HN & Hok0 & Hf0 & Hb0 & Hz0);
    [rewrite Hd; simpl; lia | assumption |].
  rewrite Hd in Hz0. simpl in Hz0.
  assert (Hc0 : content s0 = []).
  { unfold content. rewrite Hf0, Hb0, Hd. reflexivity. }
  destruct (Append_ok s0 p1 Hok0)
    as (s1 & HA1 & Hok1 & Hc1 & (_ & _ & Hl1 & Hcap1));
    [rewrite Hf0, Hz0; unfold lenWidth; lia|].
  rewrite Hc0 in Hc1. simpl in Hc1. rewrite Hz0 in HA1.
  assert (Hsz1 : size s1 = Z.of_nat (length (frame p1)))
    by (rewrite (ok_size _ Hok1), Hc1; reflexivity).
  pose proof (frame_length p1) as Hfl1.
  rewrite Hf0 in Hl1, Hcap1.
  destruct (Close_ok s1 Hok1)
    as (s2 & HC & Hd2 & Hcl2 & Hl2 & Hcap2 & _); [lia|].
  rewrite Hc1 in Hd2.
  (* the second life *)
  set (f3 := os.reopen (File s2) append).
  assert (Hl3 : os.linked f3 = true) by (unfold f3; simpl; congruence).
  assert (Hcap3 : os.capacity f3 = os.capacity f)
    by (unfold f3; simpl; congruence).
  assert (Hd3 : os.data f3 = frame p1) by exact Hd2.
  pose proof (newStore_linked f3 Hl3) as HN3.
  rewrite Hd3, uint64_small in HN3 by lia.
  set (s3 := mkStore f3 bufio.NewWriter (Z.of_nat (length (frame p1))))
    in *.
  assert (HR : Read s3 0 = (ReadOk p1, s3)).
  { apply (Read_after_flush s3 bufio.NewWriter f3 [] p1 []);
      try reflexivity; try assumption.
    - rewrite Hd3, app_nil_r. reflexivity.
    - rewrite Hd3. lia. }
  assert (Hnone : snd (fst (Append s3 p2)) = None).
  { apply Append_fits; try reflexivity.
    cbn [s3 File buf bufio.NewWriter bufio.buffered length].
    assert (wpos f3 <= length (frame p1))%nat.
    { unfold wpos, f3. cbn [os.reopen os.appendMode os.data os.offset].
      rewrite Hd2. destruct append; lia. }
    rewrite Hcap3. unfold lenWidth. lia. }
  destruct (Append s3 p2) as [[[n pos] e] s5] eqn:HA2.
  simpl in Hnone. subst e.
  pose proof (Append_spec _ _ _ _ _ _ HA2) as (Hs & _).
  destruct (Hs eq_refl) as (Hn & Hpos & Hsz5).
  cbn [s3 size] in Hpos, Hsz5. unfold lenWidth in *.
  rewrite uint64_small in Hn by lia.
  rewrite uint64_small in Hsz5 by lia.
  exists s0, s1, s2, s3, s3, s5.
  split; [exact HN|]. split; [exact HA1|]. split; [exact HC|].
  split; [exact HN3|].
  split; [cbn [s3 size]; rewrite Hd2; reflexivity|].
  split; [exact HR|].
  split.
  { replace (8 + Z.of_nat (length p2)) with n by lia.
    replace (8 + Z.of_nat (length p1)) with pos by lia.
    exact HA2. }
  (* under O_APPEND the new store is in working order *)
  intros Ha Hp2. subst append.
  assert (Hok3 : store_ok s3).
  { constructor; cbn [s3 File buf size bufio.err bufio.NewWriter];
      try reflexivity; try lia.
    - left. reflexivity.
    - unfold content. cbn [s3 File buf bufio.buffered bufio.NewWriter].
      rewrite app_nil_r, Hd3. reflexivity. }
  destruct (Append_ok s3 p2 Hok3)
    as (s5' & HA2' & Hok5 & Hc5 & (_ & _ & _ & Hcap5)).
  { cbn [s3 File size]. unfold lenWidth. lia. }
  rewrite HA2 in HA2'. inversion HA2'; subst s5'. clear HA2'.
  assert (Hc3 : content s3 = frame p1).
  { unfold content. cbn [s3 File buf bufio.buffered bufio.NewWriter].
    rewrite app_nil_r. exact Hd3. }
  rewrite Hc3 in Hc5. cbn [s3 File] in Hcap5.
  pose proof (frame_length p2) as Hfl2.
  assert (Hsz5' : size s5 <= os.capacity (File s5)).
  { rewrite (ok_size _ Hok5), Hc5, length_app. lia. }
  destruct (Read_frame s5 [] p1 (frame p2) Hok5 Hp1 Hc5 Hsz5')
    as (s6 & HR6 & Hok6 & Hc6 & _ & Hsz6 & (_ & _ & _ & Hcap6)).
  assert (Hc6' : content s6 = frame p1 ++ frame p2 ++ []).
  { rewrite app_nil_r. congruence. }
  destruct (Read_frame s6 (frame p1) p2 [] Hok6 Hp2 Hc6')
    as (s7 & HR7 & Hok7 & Hc7 & _ & Hsz7 & (_ & _ & _ & Hcap7));
    [lia|].
  destruct (Close_ok s7 Hok7) as (s8 & HC8 & Hd8 & _); [lia|].
  exists s6, s7, s8.
  split; [exact HR6|].
  split.
  - replace (8 + Z.of_nat (length p1)) with (Z.of_nat (length (frame p1)))
      by lia.
    exact HR7.
  - split; [exact HC8|]. congruence.
Qed.

Lemma restart_recovery_witness :
  os.data tmp = [] /\ at_end tmp /\
  os.closed tmp = false /\ os.linked tmp = true /\
  os.capacity tmp < 2 ^ 63 /\ is_slice hello /\
  footprint [hello; bang] <= os.capacity tmp /\
  exists s0 s1 s2 s3 s4 s5,
    newStore tmp = inl s0 /\
    Append s0 hello = ((lenWidth + Z.of_nat (length hello), 0, None), s1) /\
    Close s1 = (None, s2) /\
    newStore (os.reopen (File s2) true) = inl s3 /\
    size s3 = Z.of_nat (length (os.data (File s2))) /\
    Read s3 0 = (ReadOk hello, s4) /\
    Append s4 bang =
      ((lenWidth + Z.of_nat (length bang),
        lenWidth + Z.of_nat (length hello), None), s5) /\
    (true = true -> is_slice bang ->
     exists s6 s7 s8,
       Read s5 0 = (ReadOk hello, s6) /\
       Read s6 (lenWidth + Z.of_nat (length hello)) = (ReadOk bang, s7) /\
       Close s7 = (None, s8) /\
       os.data (File s8) = frame hello ++ frame bang).
Proof.
  assert (H1 : os.data tmp = []) by reflexivity.
  assert (H2 : at_end tmp) by (right; reflexivity).
  assert (H3 : os.closed tmp = false) by reflexivity.
  assert (H4 : os.linked tmp = true) by reflexivity.
  assert (H5 : os.capacity tmp < 2 ^ 63) by (vm_compute; reflexivity).
  assert (H6 : is_slice hello) by (vm_compute; discriminate).
  assert (H7 : footprint [hello; bang] <= os.capacity tmp)
    by (vm_compute; discriminate).
  repeat (split; [assumption|]).
  exact (restart_recovery tmp hello bang true H1 H2 H3 H4 H5 H6 H7).
Defined.

(** C4, as first stated, fails for a handle opened without O_APPEND,
    which [newStore] takes as any other: after "hello" is appended and
    the store closed, the new store has size 13 and its [Append] of "!"
    returns position 13, but the flush writes the record from offset 0.
    [Read] at position 0 then returns "!" and not "hello", [Read] at
    position 13 fails with [io.EOF], and the file is not the two frames
    one after the other. *)
Lemma restart_recovery_counterexample :
  newStore (os.reopen (File closed_store) false) = inl reopened_plain /\
  (exists s5 s6 s7,
     Append reopened_plain bang = ((9, 13, None), s5) /\
     Read s5 0 = (ReadOk bang, s6) /\
     Read s6 13 = (ReadErr EOF, s7) /\
     length (os.data (File s7)) = 13%nat /\
     os.data (File s7) <> frame hello ++ frame bang) /\
  ~ (exists s5 s6 s7,
       Append reopened_plain bang = ((9, 13, None), s5) /\
       Read s5 0 = (ReadOk hello, s6) /\
       Read s6 13 = (ReadOk bang, s7)).
Proof.
  split; [vm_compute; reflexivity|]. split.
  - exists (snd (Append reopened_plain bang)),
      (snd (Read (snd (Append reopened_plain bang)) 0)),
      (snd (Read (snd (Read (snd (Append reopened_plain bang)) 0)) 13)).
    vm_compute. repeat split. discriminate.
  - intros (s5 & s6 & s7 & HA & HR & _).
    apply (f_equal snd) in HA. cbn [snd] in HA. subst s5.
    apply (f_equal fst) in HR. vm_compute in HR. discriminate.
Qed.

(** The scenario, step by step: two appends, two reads, close, a new
    handle under O_APPEND, one more append. *)
Example scenario :
  let '(r1, s1) := Append fresh hello in
  let '(r2, s2) := Append s1 world in
  let '(b1, s3) := Read s2 0 in
  let '(b2, s4) := Read s3 13 in
  let '(e, s5) := Close s4 in
  match newStore (os.reopen (File s5) true) with
  | inr _ => False
  | inl s6 =>
      let '(r3, s7) := Append s6 bang in
      let '(b3, _) := Read s7 27 in
      r1 = (13, 0, None) /\ r2 = (14, 13, None) /\
      b1 = ReadOk hello /\ b2 = ReadOk world /\ e = None /\
      r3 = (9, 27, None) /\ b3 = ReadOk bang
  end.
Proof. vm_compute. repeat split. Qed.

(** A new handle without O_APPEND writes from offset 0: the position of
    the next record is still the file's length, but its bytes land on the
    first record. *)
Example reopen_at_offset_0 :
  let '(_, s1) := Close after_hello in
  match newStore (os.reopen (File s1) false) with
  | inr _ => False
  | inl s2 =>
      let '(r, s3) := Append s2 bang in
      let '(b0, s4) := Read s3 0 in
      let '(b13, _) := Read s4 13 in
      r = (9, 13, None) /\ b0 = ReadOk bang /\ b13 = ReadErr EOF
  end.
Proof. vm_compute. repeat split. Qed.

(** C5. After any sequence of successful appends on a new store over an
    empty file, followed by a call that flushes ([Read], [ReadAt] or
    [Close]) and leaves no write error, the file holds exactly the
    frames of the records, from offset 0 and in the order of the
    appends: for each record eight bytes that decode, big-endian, to the
    payload's length, then the payload, and nothing before, between or
    after; a record takes [8 + len(payload)] bytes. *)
Theorem file_is_frames f s0 ps rs s1 o :
  os.data f = [] -> at_end f -> newStore f = inl s0 ->
  appends s0 ps = (rs, s1) -> Forall succeeded rs ->
  flushes o -> bufio.err (buf (step s1 o)) = None ->
  os.data (File (step s1 o)) = frames ps /\
  Z.of_nat (length (os.data (File (step s1 o)))) = footprint ps /\
  Forall (fun p =>
            length (frame p) = (8 + length p)%nat /\
            skipn 8 (frame p) = p /\
            (is_slice p ->
             BigEndian.Uint64 (firstn 8 (frame p))
             = Some (Z.of_nat (length p)))) ps.
Proof.
  intros Hd Hend HN HA Hall Hfl Herr.
  destruct (newStore_content f s0 HN) as (Hf0 & _ & Hc0 & _).
  rewrite <- Hf0 in Hend.
  destruct (appends_content ps s0 rs s1 HA Hall Hend) as (Hc1 & Hend1 & _).
  rewrite Hc0, Hd in Hc1. simpl in Hc1.
  destruct (flush_step s1 o Hfl Herr) as (_ & _ & Hdata).
  destruct (Hdata Hend1) as (Hdata' & _).
  rewrite Hdata', Hc1.
  split; [reflexivity|]. split; [symmetry; apply footprint_frames|].
  apply Forall_forall. intros p _. apply frame_format.
Qed.

Lemma file_is_frames_witness :
  os.data tmp = [] /\ at_end tmp /\ newStore tmp = inl fresh /\
  appends fresh [hello; world] =
    ([(13, 0, None); (14, 13, None)], snd (appends fresh [hello; world])) /\
  Forall succeeded [(13, 0, None); (14, 13, None)] /\
  flushes OpClose /\
  bufio.err (buf (step (snd (appends fresh [hello; world])) OpClose))
  = None /\
  os.data (File (step (snd (appends fresh [hello; world])) OpClose))
  = frames [hello; world].
Proof.
  assert (H1 : os.data tmp = []) by reflexivity.
  assert (H2 : at_end tmp) by (right; reflexivity).
  assert (H3 : newStore tmp = inl fresh) by reflexivity.
  assert (H4 : appends fresh [hello; world] =
                 ([(13, 0, None); (14, 13, None)],
                  snd (appends fresh [hello; world])))
    by (vm_compute; reflexivity).
  assert (H5 : Forall succeeded [(13, 0, None); (14, 13, None)])
    by (repeat constructor).
  assert (H6 : flushes OpClose) by exact I.
  assert (H7 : bufio.err
                 (buf (step (snd (appends fresh [hello; world])) OpClose))
               = None) by (vm_compute; reflexivity).
  repeat (split; [assumption|]).
  exact (proj1 (file_is_frames tmp fresh _ _ _ OpClose
                  H1 H2 H3 H4 H5 H6 H7)).
Defined.

(** The bytes of the file after "hello" and "world!" and a [Read]. *)
Example file_bytes :
  os.data (File (snd (Read (snd (appends fresh [hello; world])) 0))) =
  [x00; x00; x00; x00; x00; x00; x00; x05; x68; x65; x6c; x6c; x6f;
   x00; x00; x00; x00; x00; x00; x00; x06; x77; x6f; x72; x6c; x64; x21].
Proof. vm_compute. reflexivity. Qed.

(** C6. [Close] flushes what is buffered before it closes the file:
    after a sequence of successful appends on a new store over an empty
    file, with no flush asked for in between, and a successful [Close],
    a store made of a new handle on the file, with or without O_APPEND,
    returns every record from [Read] at the position its [Append]
    returned. *)
Theorem Close_persists f s0 ps rs s1 s2 append :
  os.data f = [] -> at_end f -> newStore f = inl s0 ->
  appends s0 ps = (rs, s1) -> Forall succeeded rs ->
  Close s1 = (None, s2) ->
  Forall is_slice ps -> footprint ps < 2 ^ 63 ->
  os.data (File s2) = frames ps /\ os.closed (File s2) = true /\
  exists s3,
    newStore (os.reopen (File s2) append) = inl s3 /\
    size s3 = footprint ps /\
    forall i d, (i < length ps)%nat ->
      Read s3 (position (nth i rs d)) = (ReadOk (nth i ps []), s3).
Proof.
  intros Hd Hend HN HA Hall HC Hsl Hlen.
  destruct (newStore_content f s0 HN) as (Hf0 & _ & Hc0 & Hz0 & Hl0).
  rewrite Hd in Hz0. simpl in Hz0.
  assert (Hsz0 : size s0 = 0) by (rewrite Hz0; reflexivity).
  pose proof (footprint_nonneg ps) as Hfp.
  rewrite <- Hf0 in Hend, Hl0.
  destruct (appends_spec ps s0 rs s1 HA Hall) as (Hrs & _); try lia.
  destruct (appends_content ps s0 rs s1 HA Hall Hend)
    as (Hc1 & Hend1 & (_ & _ & Hl1 & _)).
  rewrite Hc0, Hd in Hc1. simpl in Hc1.
  (* what Close left *)
  assert (Herr2 : bufio.err (buf (step s1 OpClose)) = None).
  { pose proof (Close_store s1) as HS. cbn [step]. unfold Close in *.
    destruct (bufio.Flush (buf s1) (File s1)) as [[e b1] f1] eqn:HF.
    destruct HS as (Hb & _). rewrite Hb.
    pose proof (bufio.Flush_outcome _ _ _ _ _ HF) as [He _].
    destruct e; [discriminate | assumption]. }
  destruct (flush_step s1 OpClose I Herr2) as (_ & _ & Hdata).
  destruct (Hdata Hend1) as (Hd2 & Hl2 & _).
  cbn [step] in Hd2, Hl2. rewrite HC in Hd2, Hl2. cbn [snd] in Hd2, Hl2.
  rewrite Hc1 in Hd2.
  assert (Hcl2 : os.closed (File s2) = true).
  { unfold Close in HC.
    destruct (bufio.Flush (buf s1) (File s1)) as [[e b1] f1].
    destruct e; [discriminate|]. unfold os.Close in HC.
    destruct (os.closed f1); inversion HC. reflexivity. }
  split; [assumption|]. split; [assumption|].
  (* the new handle *)
  set (f3 := os.reopen (File s2) append).
  assert (Hl3 : os.linked f3 = true) by (unfold f3; simpl; congruence).
  assert (Hd3 : os.data f3 = frames ps) by exact Hd2.
  pose proof (newStore_linked f3 Hl3) as HN3.
  rewrite Hd3, <- footprint_frames, uint64_small in HN3 by lia.
  eexists. split; [exact HN3|]. split; [reflexivity|].
  intros i d Hi.
  rewrite Hrs, expected_position, Hsz0, Z.add_0_l by assumption.
  rewrite (footprint_frames (firstn i ps)).
  apply (Read_after_flush (mkStore f3 bufio.NewWriter (footprint ps))
           bufio.NewWriter f3
           (frames (firstn i ps)) (nth i ps [])
           (frames (skipn (S i) ps))).
  - reflexivity.
  - reflexivity.
  - rewrite Hd3. apply frames_split. assumption.
  - rewrite Hd3, <- footprint_frames. assumption.
  - rewrite Forall_forall in Hsl. apply Hsl. apply nth_In. assumption.
Qed.

Lemma Close_persists_witness :
  os.data tmp = [] /\ at_end tmp /\ newStore tmp = inl fresh /\
  appends fresh [hello; world] =
    ([(13, 0, None); (14, 13, None)], snd (appends fresh [hello; world])) /\
  Forall succeeded [(13, 0, None); (14, 13, None)] /\
  Close (snd (appends fresh [hello; world])) =
    (None, snd (Close (snd (appends fresh [hello; world])))) /\
  Forall is_slice [hello; world] /\ footprint [hello; world] < 2 ^ 63 /\
  os.data (File (snd (Close (snd (appends fresh [hello; world])))))
  = frames [hello; world].
Proof.
  assert (H1 : os.data tmp = []) by reflexivity.
  assert (H2 : at_end tmp) by (right; reflexivity).
  assert (H3 : newStore tmp = inl fresh) by reflexivity.
  assert (H4 : appends fresh [hello; world] =
                 ([(13, 0, None); (14, 13, None)],
                  snd (appends fresh [hello; world])))
    by (vm_compute; reflexivity).
  assert (H5 : Forall succeeded [(13, 0, None); (14, 13, None)])
    by (repeat constructor).
  assert (H6 : Close (snd (appends fresh [hello; world])) =
                 (None, snd (Close (snd (appends fresh [hello; world])))))
    by (vm_compute; reflexivity).
  assert (H7 : Forall is_slice [hello; world])
    by (repeat constructor; vm_compute; discriminate).
  assert (H8 : footprint [hello; world] < 2 ^ 63)
    by (vm_compute; reflexivity).
  repeat (split; [assumption|]).
  exact (proj1 (Close_persists tmp fresh _ _ _ _ false
                  H1 H2 H3 H4 H5 H6 H7 H8)).
Defined.

(** C7. [ReadAt] flushes the write buffer and then either fills the
    whole of the caller's buffer with the file's bytes from the offset
    on, or returns an error; the eight bytes it reads at the position of
    a record just appended decode, big-endian, to the length of the
    record's payload. *)
Theorem ReadAt_exactness :
  (forall s b off b' n e s',
     ReadAt s b off = ((b', n, e), s') ->
     length b' = length b /\
     (e = None ->
      n = length b /\ bufio.buffered (buf s') = [] /\
      b' = firstn (length b) (skipn (Z.to_nat off) (os.data (File s'))) /\
      (at_end (File s) -> os.data (File s') = content s))) /\
  (forall s p,
     store_ok s -> is_slice p ->
     size s + lenWidth + Z.of_nat (length p) <= os.capacity (File s) ->
     exists r s1 b' s2,
       Append s p = (r, s1) /\ succeeded r /\
       ReadAt s1 (repeat x00 8) (position r) = ((b', 8%nat, None), s2) /\
       BigEndian.Uint64 b' = Some (Z.of_nat (length p))).
Proof.
  split.
  - intros s b off b' n e s' H. unfold ReadAt in H.
    destruct (bufio.Flush (buf s) (File s)) as [[e1 b1] f1] eqn:HF.
    pose proof (bufio.Flush_outcome _ _ _ _ _ HF) as [_ Hnil].
    destruct e1 as [e1|].
    + inversion H; subst. split; [reflexivity | discriminate].
    + destruct (os.ReadAt f1 b off) as [[b2 n2] e2] eqn:HR.
      inversion H; subst. clear H.
      pose proof (os_ReadAt_spec _ _ _ _ _ _ HR) as (Hlen & _ & Hfill).
      split; [assumption|]. intros He.
      destruct (Hfill He) as (Hn & _ & Hb).
      destruct (Hnil eq_refl) as [_ Hnil'].
      cbn [File buf].
      split; [assumption|]. split; [assumption|]. split; [assumption|].
      intros Hend.
      destruct (Flush_content _ _ _ _ _ Hend HF) as (Hd & _).
      rewrite Hnil', app_nil_r in Hd. exact Hd.
  - intros s p Hok Hp Hroom.
    destruct (Append_ok s p Hok Hroom)
      as (s1 & HA & Hok1 & Hc1 & (_ & _ & _ & Hcap1)).
    pose proof (ok_size _ Hok) as Hsz.
    pose proof (ok_size _ Hok1) as Hsz1.
    rewrite Hc1, length_app, frame_length in Hsz1. unfold lenWidth in *.
    destruct Hok1 as [Hcl1 Herr1 Hend1 _ _].
    destruct (Flush_fits (buf s1) (File s1) Herr1 Hcl1)
      as (f1 & HF & _ & (_ & Hclf & _)).
    { rewrite (at_end_wpos _ Hend1).
      apply (f_equal (@length byte)) in Hc1.
      unfold content at 1 in Hc1.
      rewrite !length_app, frame_length in Hc1. lia. }
    destruct (Flush_content _ _ _ _ _ Hend1 HF) as (Hd & _).
    cbn [bufio.buffered] in Hd. rewrite app_nil_r in Hd.
    fold (content s1) in Hd. rewrite Hc1 in Hd. unfold frame in Hd.
    eexists _, s1, _, _. split; [exact HA|]. split; [reflexivity|].
    unfold position. cbn [fst snd]. split.
    + unfold ReadAt. rewrite HF, Hsz.
      rewrite (os_ReadAt_exact f1 _ (content s) _ p ltac:(congruence) Hd)
        by reflexivity.
      reflexivity.
    + apply frame_prefix_decodes. assumption.
Qed.

Lemma ReadAt_exactness_witness :
  store_ok fresh /\ is_slice hello /\
  size fresh + lenWidth + Z.of_nat (length hello)
    <= os.capacity (File fresh) /\
  exists r s1 b' s2,
    Append fresh hello = (r, s1) /\ succeeded r /\
    ReadAt s1 (repeat x00 8) (position r) = ((b', 8%nat, None), s2) /\
    BigEndian.Uint64 b' = Some (Z.of_nat (length hello)).
Proof.
  assert (H1 : store_ok fresh) by exact fresh_ok.
  assert (H2 : is_slice hello) by (vm_compute; discriminate).
  assert (H3 : size fresh + lenWidth + Z.of_nat (length hello)
               <= os.capacity (File fresh)) by (vm_compute; discriminate).
  repeat (split; [assumption|]).
  exact (proj2 ReadAt_exactness fresh hello H1 H2 H3).
Defined.

(** A buffer that reaches past the end of the file is filled as far as
    the file goes, with [io.EOF]. *)
Example ReadAt_past_end :
  fst (ReadAt after_hello (repeat x00 8) 9)
  = ([x65; x6c; x6c; x6f; x00; x00; x00; x00], 4%nat, Some EOF).
Proof. vm_compute. reflexivity. Qed.

(** The loop of [Writer.Write] does not run when its condition fails. *)
Lemma Write_loop_stop st :
  bufio.loop_cond st = false -> bufio.Write_loop st = st.
Proof.
  intros Hc.
  destruct (Write_loop_invariant (fun st' => st' = st)) with (st := st)
    as [H _]; [|reflexivity|exact H].
  intros st' -> Hc'. congruence.
Qed.

(** A write that fits the buffer is a copy into it. *)
Lemma bufio_Write_buffered b f p :
  bufio.err b = None ->
  (length p <= bufio.Available b)%nat ->
  bufio.Write b f p =
  (length p, None, bufio.mkWriter (bufio.buffered b ++ p) None, f).
Proof.
  intros Herr Hfit. unfold bufio.Write.
  rewrite Write_loop_stop.
  - cbn [bufio.lw bufio.lf bufio.lp bufio.lnn]. rewrite Herr.
    rewrite Nat.min_r by assumption. rewrite firstn_all. reflexivity.
  - unfold bufio.loop_cond. cbn [bufio.lw bufio.lp].
    apply andb_false_intro1. apply Nat.ltb_ge. assumption.
Qed.

(** A write that fails on a writer with bytes in its buffer and no
    error pending has first filled the buffer. *)
Lemma bufio_Write_fills b f p w e b' f' :
  bufio.Write b f p = (w, Some e, b', f') ->
  bufio.err b = None -> bufio.buffered b <> [] ->
  (bufio.Available b <= w)%nat.
Proof.
  unfold bufio.Write. intros H Herr Hne.
  destruct (Write_loop_invariant
              (fun st => st = bufio.mkLoop b f p 0 \/
                         (bufio.Available b <= bufio.lnn st)%nat))
    with (st := bufio.mkLoop b f p 0) as [Hinv _].
  - intros st [->|Hge] Hc.
    + right. unfold bufio.loop_cond in Hc. cbn [bufio.lw bufio.lp] in Hc.
      apply andb_prop in Hc. destruct Hc as [Hlen _].
      apply Nat.ltb_lt in Hlen.
      unfold bufio.loop_body. cbn [bufio.lw bufio.lf bufio.lp bufio.lnn].
      destruct (Nat.eqb_spec (length (bufio.buffered b)) 0) as [Hz|_].
      { apply length_zero_iff_nil in Hz. contradiction. }
      destruct (bufio.Flush _ _) as [[e0 b2] f0].
      cbn [bufio.lnn]. lia.
    + right. unfold bufio.loop_body.
      destruct (length (bufio.buffered (bufio.lw st)) =? 0)%nat.
      * destruct (os.Write _ _) as [[n0 e0] f0]. cbn [bufio.lnn]. lia.
      * destruct (bufio.Flush _ _) as [[e0 b2] f0]. cbn [bufio.lnn]. lia.
  - left. reflexivity.
  - destruct Hinv as [Heq|Hge].
    + rewrite Heq in H. cbn [bufio.lw] in H. rewrite Herr in H.
      discriminate.
    + destruct (bufio.err (bufio.lw (bufio.Write_loop _)));
        inversion H; subst. assumption.
Qed.

(** After a successful write of a few bytes the buffer is not empty. *)
Lemma bufio_Write_nonempty b f p b' f' :
  bufio.Write b f p = (length p, None, b', f') ->
  p <> [] -> (length p <= bufio.defaultBufSize)%nat ->
  bufio.buffered b' <> [].
Proof.
  unfold bufio.Write. intros H Hne Hlen.
  destruct (Write_loop_invariant
              (fun st => bufio.lp st <> [] /\
                         (length (bufio.lp st) <= bufio.defaultBufSize)%nat))
    with (st := bufio.mkLoop b f p 0) as [[Hlp _] _].
  - intros st [Hp Hl] Hc.
    unfold bufio.loop_cond in Hc. apply andb_prop in Hc.
    destruct Hc as [Hc _]. apply Nat.ltb_lt in Hc.
    unfold bufio.loop_body, bufio.Available, bufio.defaultBufSize in *.
    destruct (Nat.eqb_spec (length (bufio.buffered (bufio.lw st))) 0)
      as [Hz|Hz]; [lia|].
    destruct (bufio.Flush _ _) as [[e0 b2] f0]. cbn [bufio.lp].
    split.
    + intros Hnil. apply (f_equal (@length byte)) in Hnil.
      rewrite length_skipn in Hnil.
      change (length (@nil byte)) with 0%nat in Hnil. lia.
    + rewrite length_skipn. lia.
  - split; assumption.
  - set (st := bufio.Write_loop _) in *.
    destruct (bufio.err (bufio.lw st)); [discriminate|].
    inversion H as [[Hw Hb Hf]]. cbn [bufio.buffered].
    intros Hnil. apply app_eq_nil in Hnil. destruct Hnil as [Hb0 Hnil].
    apply (f_equal (@length byte)) in Hnil, Hb0.
    rewrite length_firstn in Hnil.
    change (length (@nil byte)) with 0%nat in Hnil, Hb0.
    assert (0 < length (bufio.lp st))%nat
      by (destruct (bufio.lp st); [contradiction | simpl; lia]).
    unfold bufio.Available, bufio.defaultBufSize in Hnil. lia.
Qed.

(** C8. When [Append] fails, on the prefix or on the payload, the size
    is what it was before the call, and nothing is undone: the writer
    and the file of the store are exactly those the failed call of
    [Writer.Write] left, on the prefix or, after the prefix was taken,
    on the payload.  The [k] bytes of the frame that the writer counted
    before the failure, a strict prefix of the frame and at least what
    it took to fill the buffer when no error was pending, stay where
    they were put: the buffer holds what it held and those bytes, less
    what has gone to the file from its front, and for a file written at
    its end the content of the store, file then buffer, has grown by
    exactly them. *)
Theorem failed_Append_keeps_size s p n pos e s' :
  Append s p = ((n, pos, Some e), s') ->
  size s' = size s /\
  exists k,
    (bufio.Write (buf s) (File s)
       (enc.PutUint64 (uint64 (Z.of_nat (length p))))
     = (k, Some e, buf s', File s') \/
     exists b1 f1 w,
       bufio.Write (buf s) (File s)
         (enc.PutUint64 (uint64 (Z.of_nat (length p))))
       = (8%nat, None, b1, f1) /\
       bufio.Write b1 f1 p = (w, Some e, buf s', File s') /\
       k = (8 + w)%nat) /\
    (k <= length (frame p))%nat /\
    (bufio.err (buf s) = None ->
     (k < length (frame p))%nat /\ (bufio.Available (buf s) <= k)%nat) /\
    (exists j, bufio.buffered (buf s') =
               skipn j (bufio.buffered (buf s) ++ firstn k (frame p))) /\
    (at_end (File s) -> content s' = content s ++ firstn k (frame p)).
Proof.
  intros HA.
  assert (Hsz : size s' = size s).
  { pose proof (Append_spec _ _ _ _ _ _ HA) as (_ & Hf & _).
    apply Hf. discriminate. }
  split; [assumption|].
  unfold Append, binary.Write in HA.
  assert (Hfl : length (frame p) = (8 + length p)%nat) by apply frame_length.
  rewrite !Hfl. clear Hfl. unfold frame.
  remember (enc.PutUint64 _) as prefix eqn:Hp.
  assert (Hlen : length prefix = 8%nat) by (subst prefix; reflexivity).
  clear Hp.
  destruct (bufio.Write (buf s) (File s) prefix) as [[[w1 e1] b1] f1] eqn:HW1.
  pose proof (bufio_Write_spec _ _ _ _ _ _ _ HW1)
    as (Hle1 & Hall1 & Herr1 & Hshort1 & Hcont1).
  destruct (bufio_Write_kept _ _ _ _ _ _ _ HW1) as (j1 & Hj1).
  rewrite Hlen in *.
  destruct e1 as [e1|].
  - inversion HA; subst. clear HA. cbn [File buf size] in *.
    exists w1.
    assert (Hpre : firstn w1 (prefix ++ p) = firstn w1 prefix).
    { rewrite firstn_app, Hlen.
      replace (w1 - 8)%nat with 0%nat by lia.
      simpl. apply app_nil_r. }
    rewrite Hpre.
    split; [left; reflexivity|]. split; [lia|]. split.
    { intros Hb.
      assert (w1 < 8)%nat by (apply Hshort1; [assumption | discriminate]).
      split; [lia|].
      apply (bufio_Write_fills _ _ _ _ _ _ _ HW1 Hb).
      intros Hnil.
      assert (Hrun : bufio.Write (buf s) (File s) prefix
                     = (length prefix, None,
                        bufio.mkWriter (bufio.buffered (buf s) ++ prefix)
                                       None, File s)).
      { apply bufio_Write_buffered; [assumption|].
        unfold bufio.Available. rewrite Hnil, Hlen. simpl. lia. }
      rewrite HW1 in Hrun. discriminate. }
    split; [exists j1; assumption|].
    intros Hend. destruct (Hcont1 Hend) as (Hd & _).
    unfold content. cbn [File buf]. rewrite Hd, <- app_assoc. reflexivity.
  - specialize (Hall1 eq_refl). subst w1.
    rewrite (firstn_all2 prefix) in Hj1, Hcont1 by lia.
    destruct (bufio.Write b1 f1 p) as [[[w2 e2] b2] f2] eqn:HW2.
    pose proof (bufio_Write_spec _ _ _ _ _ _ _ HW2)
      as (Hle2 & Hall2 & Herr2 & Hshort2 & Hcont2).
    destruct (bufio_Write_kept _ _ _ _ _ _ _ HW2) as (j2 & Hj2).
    destruct e2 as [e2|]; [|discriminate].
    inversion HA; subst. clear HA. cbn [File buf size] in *.
    assert (Hpre : firstn (8 + w2) (prefix ++ p) = prefix ++ firstn w2 p).
    { rewrite firstn_app, Hlen.
      replace (8 + w2 - 8)%nat with w2 by lia.
      rewrite (firstn_all2 prefix) by lia. reflexivity. }
    assert (Hw2 : (w2 < length p)%nat)
      by (apply Hshort2; [assumption | discriminate]).
    exists (8 + w2)%nat. rewrite Hpre.
    split; [right; exists b1, f1, w2; auto|]. split; [lia|]. split.
    { intros Hb. split; [lia|].
      assert (Hne : bufio.buffered b1 <> []).
      { rewrite <- Hlen in HW1.
        apply (bufio_Write_nonempty _ _ _ _ _ HW1).
        - destruct prefix; [discriminate | discriminate].
        - rewrite Hlen. unfold bufio.defaultBufSize. lia. }
      pose proof (bufio_Write_fills _ _ _ _ _ _ _ HW2 Herr1 Hne) as Hfill.
      apply (f_equal (@length byte)) in Hj1.
      rewrite length_skipn, length_app, Hlen in Hj1.
      unfold bufio.Available in *. lia. }
    split.
    { rewrite app_assoc, Hj2, Hj1. apply skipn_skipn_app. }
    intros Hend. destruct (Hcont1 Hend) as (Hd1 & He1 & _).
    destruct (Hcont2 He1) as (Hd2 & _).
    unfold content. cbn [File buf]. rewrite Hd2, app_assoc, Hd1.
    rewrite <- !app_assoc. reflexivity.
Qed.

Lemma failed_Append_keeps_size_witness :
  Append closed_store big =
    ((0, 0, Some ErrClosed), snd (Append closed_store big)) /\
  size (snd (Append closed_store big)) = size closed_store /\
  size closed_store = 13 /\
  length (bufio.buffered (buf closed_store)) = 0%nat /\
  length (bufio.buffered (buf (snd (Append closed_store big)))) = 4096%nat.
Proof.
  assert (H1 : Append closed_store big =
                 ((0, 0, Some ErrClosed), snd (Append closed_store big)))
    by (vm_compute; reflexivity).
  split; [exact H1|].
  split; [exact (proj1 (failed_Append_keeps_size _ _ _ _ _ _ H1))|].
  vm_compute. repeat split.
Defined.

(** What the failed call of the witness left: the prefix and the first
    4088 bytes of the payload, all in the buffer, and the file as it
    was. *)
Example failed_Append_buffer :
  bufio.buffered (buf (snd (Append closed_store big)))
  = firstn 4096 (frame big) /\
  File (snd (Append closed_store big)) = File closed_store /\
  bufio.err (buf (snd (Append closed_store big))) = Some ErrClosed.
Proof. vm_compute. repeat split. Qed.

(** C9. When [Append] returns an error, the count and the position it
    returns are both 0, whatever the size of the store: the size before
    the call is not reported. *)
Theorem failed_Append_returns_zeros s p n pos e s' :
  Append s p = ((n, pos, Some e), s') -> n = 0 /\ pos = 0.
Proof.
  intros HA.
  pose proof (Append_spec _ _ _ _ _ _ HA) as (_ & Hf & _).
  destruct Hf as (Hn & Hpos & _); [discriminate|]. auto.
Qed.

Lemma failed_Append_returns_zeros_witness :
  Append closed_store big =
    ((0, 0, Some ErrClosed), snd (Append closed_store big)) /\
  size closed_store = 13 /\ 0 = 0 /\ 0 = 0.
Proof.
  assert (H1 : Append closed_store big =
                 ((0, 0, Some ErrClosed), snd (Append closed_store big)))
    by (vm_compute; reflexivity).
  split; [exact H1|]. split; [reflexivity|].
  exact (failed_Append_returns_zeros _ _ _ _ _ _ H1).
Defined.

(** C10. [Read], [ReadAt] and [Close] leave the size as it was, whether
    they succeed or fail, and so does an [Append] that fails: the size
    changes only in a successful [Append], and over any sequence of
    calls it never decreases (sizes being [uint64] values, as long as
    the bytes appended keep the size one). *)
Theorem size_only_grows :
  (forall s pos, size (snd (Read s pos)) = size s) /\
  (forall s b off, size (snd (ReadAt s b off)) = size s) /\
  (forall s, size (snd (Close s)) = size s) /\
  (forall s p, ~ succeeded (fst (Append s p)) ->
               size (snd (Append s p)) = size s) /\
  (forall s ops,
     0 <= size s -> size s + appended ops < 2 ^ 64 ->
     size s <= size (run s ops)).
Proof.
  split; [|split; [|split; [|split]]].
  - intros s pos. rewrite Read_store.
    destruct (bufio.Flush _ _) as [[e b1] f1]. reflexivity.
  - intros s b off. rewrite ReadAt_store.
    destruct (bufio.Flush _ _) as [[e b1] f1]. reflexivity.
  - intros s. pose proof (Close_store s) as HC.
    destruct (bufio.Flush _ _) as [[e b1] f1]. apply HC.
  - intros s p Hfail.
    destruct (Append s p) as [[[n pos] e] s'] eqn:HA.
    pose proof (Append_spec _ _ _ _ _ _ HA) as (_ & Hf & _).
    apply Hf. exact Hfail.
  - intros s ops Hnn Hroom. apply run_size; assumption.
Qed.

Lemma size_only_grows_witness :
  0 <= size fresh /\
  size fresh
    + appended [OpAppend hello; OpRead 0; OpAppend world; OpClose;
                OpAppend big; OpReadAt [x00] 3] < 2 ^ 64 /\
  size fresh <=
  size (run fresh [OpAppend hello; OpRead 0; OpAppend world; OpClose;
                   OpAppend big; OpReadAt [x00] 3]).
Proof.
  assert (H1 : 0 <= size fresh) by (vm_compute; discriminate).
  assert (H2 : size fresh
               + appended [OpAppend hello; OpRead 0; OpAppend world;
                           OpClose; OpAppend big; OpReadAt [x00] 3]
               < 2 ^ 64) by (vm_compute; reflexivity).
  split; [exact H1|]. split; [exact H2|].
  exact (proj2 (proj2 (proj2 (proj2 size_only_grows))) fresh _ H1 H2).
Defined.

(** The sizes along that run: the append after [Close] fails and adds
    nothing. *)
Example sizes_along_run :
  map (fun ops => size (run fresh ops))
      [ [OpAppend hello];
        [OpAppend hello; OpRead 0];
        [OpAppend hello; OpRead 0; OpAppend world];
        [OpAppend hello; OpRead 0; OpAppend world; OpClose];
        [OpAppend hello; OpRead 0; OpAppend world; OpClose; OpAppend big] ]
  = [13; 13; 27; 27; 27].
Proof. vm_compute. reflexivity. Qed.

(** * Further properties of the store *)

(** ** The byte order, both ways *)

Lemma of_byte_range b : 0 <= of_byte b < 256.
Proof.
  unfold of_byte. pose proof (Byte.to_N_bounded b). lia.
Qed.

Lemma to_of_byte b : to_byte (of_byte b) = b.
Proof.
  unfold to_byte.
  pose proof (of_byte_range b) as Hr.
  change 255 with (Z.ones 8). rewrite Z.land_ones by lia.
  rewrite Z.mod_small by (change (2 ^ 8) with 256; lia).
  unfold of_byte. rewrite N2Z.id, Byte.of_to_N. reflexivity.
Qed.

Lemma testbit_byte_field x k m :
  0 <= x < 256 -> 0 <= k -> 0 <= m ->
  Z.testbit (Z.shiftl x k) m =
  (k <=? m) && (m <? k + 8) && Z.testbit x (m - k).
Proof.
  intros Hx Hk Hm.
  destruct (Z.leb_spec k m) as [Hle|Hlt]; simpl.
  - rewrite Z.shiftl_spec by lia.
    destruct (Z.ltb_spec m (k + 8)) as [H8|H8]; simpl; [reflexivity|].
    destruct (Z.eq_dec x 0) as [->|Hnz]; [apply Z.testbit_0_l|].
    apply Z.bits_above_log2; [lia|].
    assert (Z.log2 x < 8) by (apply Z.log2_lt_pow2; lia). lia.
  - apply Z.shiftl_spec_low. lia.
Qed.

Lemma byte_bits_high x m : 0 <= x < 256 -> 8 <= m -> Z.testbit x m = false.
Proof.
  intros Hx Hm.
  destruct (Z.eq_dec x 0) as [->|Hnz]; [apply Z.testbit_0_l|].
  apply Z.bits_above_log2; [lia|].
  assert (Z.log2 x < 8) by (apply Z.log2_lt_pow2; lia). lia.
Qed.

Section Fields.
Variables x0 x1 x2 x3 x4 x5 x6 x7 : Z.
Hypothesis H0 : 0 <= x0 < 256.
Hypothesis H1 : 0 <= x1 < 256.
Hypothesis H2 : 0 <= x2 < 256.
Hypothesis H3 : 0 <= x3 < 256.
Hypothesis H4 : 0 <= x4 < 256.
Hypothesis H5 : 0 <= x5 < 256.
Hypothesis H6 : 0 <= x6 < 256.
Hypothesis H7 : 0 <= x7 < 256.

Let V := Z.lor x7 (Z.lor (Z.shiftl x6 8) (Z.lor (Z.shiftl x5 16)
          (Z.lor (Z.shiftl x4 24) (Z.lor (Z.shiftl x3 32)
          (Z.lor (Z.shiftl x2 40) (Z.lor (Z.shiftl x1 48) (Z.shiftl x0 56))))))).


Ltac field_bits :=
  apply Z.bits_inj'; intros n Hn;
  rewrite Z.land_spec, Z.shiftr_spec by lia;
  unfold V; rewrite !Z.lor_spec, !testbit_byte_field by lia;
  change 255 with (Z.ones 8);
  destruct (Z.ltb_spec n 8) as [Hlt|Hge];
  [ rewrite Z.ones_spec_low by lia; rewrite andb_true_r;
    repeat decide_cmp;
    try (rewrite (byte_bits_high x7) by (assumption || lia));
    simpl; try rewrite !orb_false_r; f_equal; lia
  | rewrite Z.ones_spec_high by lia; rewrite andb_false_r;
    symmetry; apply byte_bits_high; (assumption || lia) ].

Lemma V_field0 : Z.land (Z.shiftr V 56) 255 = x0. Proof. field_bits. Qed.
Lemma V_field1 : Z.land (Z.shiftr V 48) 255 = x1. Proof. field_bits. Qed.
Lemma V_field2 : Z.land (Z.shiftr V 40) 255 = x2. Proof. field_bits. Qed.
Lemma V_field3 : Z.land (Z.shiftr V 32) 255 = x3. Proof. field_bits. Qed.
Lemma V_field4 : Z.land (Z.shiftr V 24) 255 = x4. Proof. field_bits. Qed.
Lemma V_field5 : Z.land (Z.shiftr V 16) 255 = x5. Proof. field_bits. Qed.
Lemma V_field6 : Z.land (Z.shiftr V 8) 255 = x6. Proof. field_bits. Qed.
Lemma V_field7 : Z.land V 255 = x7.
Proof. rewrite <- (Z.shiftr_0_r V). field_bits. Qed.

Lemma V_range : 0 <= V < 2 ^ 64.
Proof.
  assert (HV : Z.land V (Z.ones 64) = V).
  { apply Z.bits_inj'; intros n Hn.
    rewrite Z.land_spec.
    destruct (Z.ltb_spec n 64) as [Hlt|Hge].
    - rewrite Z.ones_spec_low by lia. apply andb_true_r.
    - rewrite Z.ones_spec_high by lia. rewrite andb_false_r.
      unfold V. rewrite !Z.lor_spec, !testbit_byte_field by lia.
      rewrite (byte_bits_high x7) by (assumption || lia).
      repeat decide_cmp. reflexivity. }
  rewrite Z.land_ones in HV by lia.
  rewrite <- HV. apply Z.mod_pos_bound. lia.
Qed.
End Fields.

Lemma byte_of_field x b : Z.land x 255 = of_byte b -> to_byte x = b.
Proof.
  intros H. unfold to_byte. rewrite H. unfold of_byte.
  rewrite N2Z.id, Byte.of_to_N. reflexivity.
Qed.

(** What [enc.Uint64] decodes is a [uint64], and [enc.PutUint64] of it
    gives the eight bytes back. *)
Lemma Uint64_inverse b v :
  length b = 8%nat -> enc.Uint64 b = Some v ->
  0 <= v < 2 ^ 64 /\ enc.PutUint64 v = b.
Proof.
  intros Hlen H.
  destruct b as [|b0 [|b1 [|b2 [|b3 [|b4 [|b5 [|b6 [|b7 [|b8 b]]]]]]]]];
    try discriminate.
  unfold enc.Uint64, BigEndian.Uint64 in H.
  apply (f_equal (fun o => match o with Some x => x | None => 0 end)) in H.
  cbv beta iota in H. subst v.
  pose proof (of_byte_range b0). pose proof (of_byte_range b1).
  pose proof (of_byte_range b2). pose proof (of_byte_range b3).
  pose proof (of_byte_range b4). pose proof (of_byte_range b5).
  pose proof (of_byte_range b6). pose proof (of_byte_range b7).
  split; [apply V_range; assumption|].
  unfold enc.PutUint64, BigEndian.PutUint64.
  f_equal; [apply byte_of_field, V_field0; assumption|].
  f_equal; [apply byte_of_field, V_field1; assumption|].
  f_equal; [apply byte_of_field, V_field2; assumption|].
  f_equal; [apply byte_of_field, V_field3; assumption|].
  f_equal; [apply byte_of_field, V_field4; assumption|].
  f_equal; [apply byte_of_field, V_field5; assumption|].
  f_equal; [apply byte_of_field, V_field6; assumption|].
  f_equal. apply byte_of_field, V_field7; assumption.
Qed.

(** X1. [enc] round trip: the eight bytes [PutUint64] makes of a
    [uint64] decode to it, and the value [Uint64] decodes from eight
    bytes is a [uint64] that encodes to the same bytes. *)
Theorem enc_round_trip :
  (forall v, 0 <= v < 2 ^ 64 ->
     length (enc.PutUint64 v) = 8%nat /\
     enc.Uint64 (enc.PutUint64 v) = Some v) /\
  (forall b v, length b = 8%nat -> enc.Uint64 b = Some v ->
     0 <= v < 2 ^ 64 /\ enc.PutUint64 v = b).
Proof.
  split.
  - intros v Hv. split; [reflexivity | apply Uint64_PutUint64; assumption].
  - intros b v Hlen H. apply Uint64_inverse; assumption.
Qed.

Lemma enc_round_trip_witness :
  0 <= 4096 < 2 ^ 64 /\
  enc.Uint64 (enc.PutUint64 4096) = Some 4096 /\
  length [x00; x00; x00; x00; x00; x00; x10; x00] = 8%nat /\
  enc.Uint64 [x00; x00; x00; x00; x00; x00; x10; x00] = Some 4096 /\
  enc.PutUint64 4096 = [x00; x00; x00; x00; x00; x00; x10; x00].
Proof.
  assert (H1 : 0 <= 4096 < 2 ^ 64) by lia.
  assert (H2 : length [x00; x00; x00; x00; x00; x00; x10; x00] = 8%nat)
    by reflexivity.
  assert (H3 : enc.Uint64 [x00; x00; x00; x00; x00; x00; x10; x00]
               = Some 4096) by (vm_compute; reflexivity).
  split; [exact H1|].
  split; [exact (proj2 (proj1 enc_round_trip 4096 H1))|].
  split; [exact H2|]. split; [exact H3|].
  exact (proj2 (proj2 enc_round_trip _ _ H2 H3)).
Defined.

(** ** Errors that stay, and calls after [Close] *)

(** A writer with a pending error takes nothing. *)
Lemma bufio_Write_stuck b f p e :
  bufio.err b = Some e -> bufio.Write b f p = (0%nat, Some e, b, f).
Proof.
  intros Herr. unfold bufio.Write.
  rewrite Write_loop_stop.
  - cbn [bufio.lw bufio.lf bufio.lp bufio.lnn]. rewrite Herr. reflexivity.
  - unfold bufio.loop_cond. cbn [bufio.lw bufio.lp]. rewrite Herr.
    apply andb_false_r.
Qed.

Lemma Flush_stuck b f e :
  bufio.err b = Some e -> bufio.Flush b f = (Some e, b, f).
Proof. intros Herr. unfold bufio.Flush. rewrite Herr. reflexivity. Qed.

(** With an error pending in the writer, every call returns it and
    leaves the store as it is. *)
Lemma pending_error_sticks s e :
  bufio.err (buf s) = Some e ->
  (forall p, Append s p = ((0, 0, Some e), s)) /\
  (forall pos, Read s pos = (ReadErr e, s)) /\
  (forall b off, ReadAt s b off = ((b, 0%nat, Some e), s)) /\
  Close s = (Some e, s) /\
  (forall ops, run s ops = s).
Proof.
  intros Herr. destruct s as [f b sz]. cbn [buf] in Herr.
  assert (HA : forall p, Append (mkStore f b sz) p
                         = ((0, 0, Some e), mkStore f b sz)).
  { intros p. unfold Append, binary.Write. cbn [File buf size].
    rewrite (bufio_Write_stuck _ _ _ _ Herr). reflexivity. }
  assert (HR : forall pos, Read (mkStore f b sz) pos
                           = (ReadErr e, mkStore f b sz)).
  { intros pos. unfold Read. cbn [File buf size].
    rewrite (Flush_stuck _ _ _ Herr). reflexivity. }
  assert (HRA : forall p off, ReadAt (mkStore f b sz) p off
                              = ((p, 0%nat, Some e), mkStore f b sz)).
  { intros p off. unfold ReadAt. cbn [File buf size].
    rewrite (Flush_stuck _ _ _ Herr). reflexivity. }
  assert (HC : Close (mkStore f b sz) = (Some e, mkStore f b sz)).
  { unfold Close. cbn [File buf size].
    rewrite (Flush_stuck _ _ _ Herr). reflexivity. }
  repeat (split; [assumption|]).
  induction ops as [|o ops IH]; [reflexivity|].
  change (run (mkStore f b sz) (o :: ops))
    with (run (step (mkStore f b sz) o) ops).
  destruct o; cbn [step]; rewrite ?HA, ?HR, ?HRA, ?HC; exact IH.
Qed.

(** X2. A failed [Append] is final: the error stays in the writer, so
    every later [Append], [Read], [ReadAt] and [Close] returns the same
    error and changes nothing; in particular [Close] never closes the
    file. *)
Theorem failed_Append_is_final s p n pos e s' :
  Append s p = ((n, pos, Some e), s') ->
  (forall q, Append s' q = ((0, 0, Some e), s')) /\
  (forall pos', Read s' pos' = (ReadErr e, s')) /\
  (forall b off, ReadAt s' b off = ((b, 0%nat, Some e), s')) /\
  Close s' = (Some e, s') /\
  (forall ops, run s' ops = s').
Proof.
  intros HA.
  pose proof (Append_spec _ _ _ _ _ _ HA) as (_ & _ & Herr & _).
  apply pending_error_sticks. assumption.
Qed.

Lemma failed_Append_is_final_witness :
  Append closed_store big =
    ((0, 0, Some ErrClosed), snd (Append closed_store big)) /\
  Close (snd (Append closed_store big)) =
    (Some ErrClosed, snd (Append closed_store big)) /\
  Append (snd (Append closed_store big)) [] =
    ((0, 0, Some ErrClosed), snd (Append closed_store big)).
Proof.
  assert (H1 : Append closed_store big =
                 ((0, 0, Some ErrClosed), snd (Append closed_store big)))
    by (vm_compute; reflexivity).
  pose proof (failed_Append_is_final _ _ _ _ _ _ H1) as (HA & _ & _ & HC & _).
  split; [exact H1|]. split; [exact HC | exact (HA [])].
Defined.

(** Writing moves no flag of the handle. *)
Lemma os_Write_flags f b n e f' :
  os.Write f b = (n, e, f') -> same_handle f f'.
Proof.
  unfold os.Write. intros H.
  destruct (os.closed f) eqn:Hcl.
  - inversion H; subst. apply same_handle_refl.
  - match type of H with context [if (?m =? 0)%nat then _ else _] =>
      destruct (m =? 0)%nat
    end; inversion H; subst.
    + apply same_handle_refl.
    + unfold same_handle. cbn. rewrite Hcl. auto.
Qed.


(** A flush that succeeded leaves a writer as new. *)
Lemma Flush_settles b f b' f' :
  bufio.Flush b f = (None, b', f') -> b' = bufio.NewWriter.
Proof.
  intros HF.
  destruct (bufio.Flush_outcome _ _ _ _ _ HF) as [He Hnil].
  destruct (Hnil eq_refl) as [_ Hb].
  destruct b' as [bb be]. simpl in *. subst. reflexivity.
Qed.




(** A frame that fits the buffer is copied into it; the file is not
    touched, open or not. *)
Lemma Append_in_buffer s p :
  bufio.err (buf s) = None ->
  (length (bufio.buffered (buf s)) + 8 + length p
     <= bufio.defaultBufSize)%nat ->
  Append s p =
  ((8 + Z.of_nat (length p), size s, None),
   mkStore (File s)
           (bufio.mkWriter (bufio.buffered (buf s) ++ frame p) None)
           (uint64 (size s + (8 + Z.of_nat (length p))))).
Proof.
  intros Herr Hfit. unfold Append, binary.Write.
  unfold bufio.defaultBufSize in Hfit.
  rewrite bufio_Write_buffered;
    [|assumption
     |unfold bufio.Available, bufio.defaultBufSize;
      change (length (enc.PutUint64 _)) with 8%nat; lia].
  rewrite bufio_Write_buffered;
    [|reflexivity
     |unfold bufio.Available, bufio.defaultBufSize; cbn [bufio.buffered];
      rewrite length_app; change (length (enc.PutUint64 _)) with 8%nat;
      lia].
  cbn [bufio.buffered]. unfold lenWidth.
  rewrite (uint64_small (Z.of_nat (length p) + 8)) by lia.
  rewrite <- app_assoc. unfold frame.
  replace (Z.of_nat (length p) + 8) with (8 + Z.of_nat (length p)) by lia.
  reflexivity.
Qed.

(** X4. After a successful [Close] the store still takes calls: [Read]
    and [ReadAt] (of a buffer that is not empty) fail with the error of
    a closed file and a second [Close] fails too, all leaving the store
    as it is; but an [Append] whose frame fits the write buffer reports
    success and a position, although its bytes can never reach the
    file: the [Read] and [Close] that follow fail. *)
Theorem use_after_Close s s1 :
  Close s = (None, s1) ->
  (forall pos, 0 <= pos < 2 ^ 63 ->
     Read s1 pos = (ReadErr ErrClosed, s1)) /\
  (forall b off, b <> [] -> 0 <= off ->
     ReadAt s1 b off = ((b, 0%nat, Some ErrClosed), s1)) /\
  Close s1 = (Some ErrClosed, s1) /\
  (forall p, (8 + length p <= bufio.defaultBufSize)%nat ->
     exists s2,
       Append s1 p = ((8 + Z.of_nat (length p), size s1, None), s2) /\
       File s2 = File s1 /\
       (forall pos, fst (Read s2 pos) = ReadErr ErrClosed) /\
       fst (Close s2) = Some ErrClosed).
Proof.
  intros HC.
  assert (Hcl : os.closed (File s1) = true /\ buf s1 = bufio.NewWriter).
  { unfold Close in HC.
    destruct (bufio.Flush (buf s) (File s)) as [[e1 b1] f1] eqn:HF.
    destruct e1 as [e1|]; [discriminate|].
    apply Flush_settles in HF. subst b1.
    unfold os.Close in HC. destruct (os.closed f1); [discriminate|].
    inversion HC; subst. auto. }
  destruct Hcl as [Hcl Hb].
  destruct s1 as [f1 b1 sz1]. cbn [File buf size] in *. subst b1.
  split; [|split; [|split]].
  - intros pos Hpos. unfold Read. cbn [File buf size].
    rewrite Flush_settled, int64_small by assumption.
    unfold os.ReadAt. rewrite Hcl.
    destruct (Z.ltb_spec pos 0); [lia | reflexivity].
  - intros b off Hne Hoff. unfold ReadAt. cbn [File buf size].
    rewrite Flush_settled. unfold os.ReadAt. rewrite Hcl.
    destruct (Z.ltb_spec off 0); [lia|].
    destruct b; [contradiction | reflexivity].
  - unfold Close. cbn [File buf size].
    rewrite Flush_settled. unfold os.Close. rewrite Hcl. reflexivity.
  - intros p Hp.
    eexists. split; [apply Append_in_buffer; [reflexivity | exact Hp]|].
    cbn [File buf size bufio.buffered bufio.NewWriter app].
    split; [reflexivity|].
    assert (HF : bufio.Flush (bufio.mkWriter (frame p) None) f1 =
                 (Some ErrClosed,
                  bufio.mkWriter (frame p) (Some ErrClosed), f1)).
    { unfold bufio.Flush. cbn [bufio.err bufio.buffered].
      rewrite frame_length. cbn [Nat.add Nat.eqb].
      unfold os.Write. rewrite Hcl. reflexivity. }
    split.
    + intros pos. unfold Read. cbn [File buf size]. rewrite HF. reflexivity.
    + unfold Close. cbn [File buf size]. rewrite HF. reflexivity.
Qed.

Lemma use_after_Close_witness :
  Close after_hello = (None, closed_store) /\
  Read closed_store 0 = (ReadErr ErrClosed, closed_store) /\
  Close closed_store = (Some ErrClosed, closed_store) /\
  exists s2,
    Append closed_store world = ((14, 13, None), s2) /\
    fst (Read s2 13) = ReadErr ErrClosed.
Proof.
  assert (H1 : Close after_hello = (None, closed_store))
    by (vm_compute; reflexivity).
  destruct (use_after_Close _ _ H1) as (HR & _ & HC & HA).
  split; [exact H1|].
  split; [apply HR; lia|]. split; [exact HC|].
  destruct (HA world) as (s2 & HA2 & _ & HR2 & _);
    [unfold bufio.defaultBufSize, world; simpl length; lia|].
  exists s2. split; [exact HA2 | apply HR2].
Defined.

(** ** What [Read] does at any position *)

(** A second [Read] at the same position finds the store flushed. *)
Lemma Read_twice s pos :
  Read (snd (Read s pos)) pos = Read s pos.
Proof.
  unfold Read at 2 3.
  destruct (bufio.Flush (buf s) (File s)) as [[e b1] f1] eqn:HF.
  destruct e as [e|].
  - cbn [snd].
    destruct (bufio.Flush_outcome _ _ _ _ _ HF) as [He _].
    unfold Read. cbn [File buf size].
    rewrite (Flush_stuck _ _ _ He). reflexivity.
  - apply Flush_settles in HF. subst b1.
    assert (Hagain : forall r,
              Read (mkStore f1 bufio.NewWriter (size s)) pos = r ->
              Read (snd r) pos = r).
    { intros r <-. unfold Read at 2. cbn [File buf size].
      rewrite Flush_settled.
      destruct (os.ReadAt f1 _ _) as [[sb k] e1]. destruct e1; [reflexivity|].
      destruct (enc.Uint64 sb) as [n|]; [|reflexivity].
      destruct (maxAlloc <? n); [reflexivity|].
      destruct (os.ReadAt f1 _ _) as [[bb k'] e2]. destruct e2; reflexivity. }
    apply Hagain.
    unfold Read. cbn [File buf size]. rewrite Flush_settled. reflexivity.
Qed.

(** X5. [Read] is idempotent: calling it again at the same position, on
    the store the first call left, returns the same result and leaves
    the same store, whether the first call succeeded, failed or
    panicked. *)
Theorem Read_idempotent s pos :
  Read (snd (Read s pos)) pos = Read s pos.
Proof. exact (Read_twice s pos). Qed.

(** The flush of a store in working order with room in the medium. *)
Lemma Flush_ok s :
  store_ok s -> size s <= os.capacity (File s) ->
  exists f1,
    bufio.Flush (buf s) (File s) = (None, bufio.NewWriter, f1) /\
    os.data f1 = content s /\ os.closed f1 = false.
Proof.
  intros [Hcl Herr Hend Hsize Hcap] Hroom.
  unfold content in Hsize. rewrite length_app in Hsize.
  destruct (Flush_fits (buf s) (File s) Herr Hcl)
    as (f1 & HF & _ & (_ & Hcl1 & _)); [rewrite (at_end_wpos _ Hend); lia|].
  destruct (Flush_content _ _ _ _ _ Hend HF) as (Hd & _).
  cbn [bufio.buffered] in Hd. rewrite app_nil_r in Hd.
  exists f1. split; [exact HF|]. split; [exact Hd | congruence].
Qed.


(** [File.ReadAt] before offset 0, and with too few bytes left. *)
Lemma os_ReadAt_fails f b off :
  (off < 0 -> snd (os.ReadAt f b off) = Some ErrNegativeOffset) /\
  (os.closed f = false -> 0 <= off -> b <> [] ->
   Z.of_nat (length (os.data f)) < off + Z.of_nat (length b) ->
   snd (os.ReadAt f b off) = Some EOF).
Proof.
  unfold os.ReadAt. split.
  - intros Hneg. destruct (Z.ltb_spec off 0); [reflexivity | lia].
  - intros Hcl Hpos Hne Hshort. rewrite Hcl.
    destruct (Z.ltb_spec off 0); [lia|].
    assert (0 < length b)%nat by (destruct b; [contradiction | simpl; lia]).
    destruct (Nat.eqb_spec (length b) 0); [lia|].
    cbn [snd]. rewrite length_firstn, length_skipn.
    destruct (Nat.ltb_spec
                (Nat.min (length b) (length (os.data f) - Z.to_nat off))
                (length b)); [reflexivity | lia].
Qed.

(** X6. A position out of range: on a store in working order, [Read]
    at a position of [2^63] or more fails on the negative file offset
    that [int64(pos)] is, and [Read] at a position with fewer than
    eight bytes of content after it, the size itself included, fails
    with [io.EOF]. *)
Theorem Read_out_of_range s pos :
  store_ok s -> size s <= os.capacity (File s) ->
  0 <= pos < 2 ^ 64 ->
  (2 ^ 63 <= pos -> fst (Read s pos) = ReadErr ErrNegativeOffset) /\
  (pos < 2 ^ 63 -> size s < pos + lenWidth ->
   fst (Read s pos) = ReadErr EOF).
Proof.
  intros Hok Hroom Hpos.
  destruct (Flush_ok s Hok Hroom) as (f1 & HF & Hd & Hcl).
  pose proof (ok_size _ Hok) as Hsz.
  unfold Read. rewrite HF.
  destruct (os_ReadAt_fails f1 (repeat x00 (Z.to_nat lenWidth))
              (int64 pos)) as [Hneg Hshort].
  specialize (Hshort Hcl).
  rewrite repeat_length, Hd in Hshort.
  destruct (os.ReadAt f1 _ (int64 pos)) as [[sb k] e1].
  cbn [snd] in Hneg, Hshort. unfold lenWidth in *.
  split.
  - intros Hbig. rewrite Hneg; [reflexivity|].
    unfold int64. rewrite Z.mod_small by lia.
    destruct (Z.ltb_spec pos (2 ^ 63)); lia.
  - intros Hsmall Hlt. rewrite int64_small in Hshort by lia.
    rewrite Hshort; [reflexivity | lia | discriminate | simpl; lia].
Qed.

Lemma Read_out_of_range_witness :
  store_ok after_hello /\
  size after_hello <= os.capacity (File after_hello) /\
  0 <= 13 < 2 ^ 64 /\
  fst (Read after_hello 13) = ReadErr EOF.
Proof.
  assert (H1 : store_ok after_hello).
  { constructor; try (vm_compute; reflexivity). right. reflexivity. }
  assert (H2 : size after_hello <= os.capacity (File after_hello))
    by (vm_compute; discriminate).
  assert (H3 : 0 <= 13 < 2 ^ 64) by lia.
  split; [exact H1|]. split; [exact H2|]. split; [exact H3|].
  apply (proj2 (Read_out_of_range after_hello 13 H1 H2 H3)).
  - lia.
  - vm_compute. reflexivity.
Defined.

(** X7. What [Read] returns is in the file: whenever [Read] returns a
    record, at whatever position, the write buffer is empty, the eight
    bytes of the file at the position decode to the record's length,
    which is that of a slice, and the record is the bytes of the file
    that follow them. *)
Theorem Read_sound s pos b s' :
  Read s pos = (ReadOk b, s') ->
  bufio.buffered (buf s') = [] /\
  0 <= int64 pos /\
  Z.of_nat (length b) <= maxAlloc /\
  enc.Uint64 (firstn 8 (skipn (Z.to_nat (int64 pos)) (os.data (File s'))))
  = Some (Z.of_nat (length b)) /\
  b = firstn (length b)
        (skipn (Z.to_nat (int64 (uint64 (pos + lenWidth))))
               (os.data (File s'))).
Proof.
  unfold Read. intros H.
  destruct (bufio.Flush (buf s) (File s)) as [[e b1] f1] eqn:HF.
  destruct e as [e|]; [discriminate|].
  apply Flush_settles in HF. subst b1.
  destruct (os.ReadAt f1 _ (int64 pos)) as [[sb k] e1] eqn:HR1.
  destruct e1 as [e1|]; [discriminate|].
  destruct (enc.Uint64 sb) as [n|] eqn:HU; [|discriminate].
  destruct (Z.ltb_spec maxAlloc n) as [|Hn]; [discriminate|].
  destruct (os.ReadAt f1 _ (int64 (uint64 (pos + lenWidth))))
    as [[bb k'] e2] eqn:HR2.
  destruct e2 as [e2|]; [discriminate|].
  inversion H; subst. clear H. cbn [File buf bufio.buffered bufio.NewWriter].
  pose proof (os_ReadAt_spec _ _ _ _ _ _ HR1) as (Hl1 & _ & Hf1).
  destruct (Hf1 eq_refl) as (_ & Hoff1 & Hsb).
  pose proof (os_ReadAt_spec _ _ _ _ _ _ HR2) as (Hl2 & _ & Hf2).
  destruct (Hf2 eq_refl) as (_ & _ & Hbb).
  rewrite repeat_length in *. change (Z.to_nat lenWidth) with 8%nat in *.
  destruct (Uint64_inverse sb n Hl1 HU) as [Hrange _].
  assert (Hlen : Z.of_nat (length b) = n) by lia.
  split; [reflexivity|]. split; [assumption|].
  split; [lia|]. split.
  - rewrite <- Hsb, Hlen. exact HU.
  - rewrite Hl2. exact Hbb.
Qed.

Lemma Read_sound_witness :
  Read after_hello 0 = (ReadOk hello, snd (Read after_hello 0)) /\
  enc.Uint64 (firstn 8 (skipn (Z.to_nat (int64 0))
                          (os.data (File (snd (Read after_hello 0))))))
  = Some (Z.of_nat (length hello)).
Proof.
  assert (H1 : Read after_hello 0 = (ReadOk hello, snd (Read after_hello 0)))
    by (vm_compute; reflexivity).
  split; [exact H1|].
  exact (proj1 (proj2 (proj2 (proj2 (Read_sound _ _ _ _ H1))))).
Defined.

(** X8. [Read] at a position that is not the start of a record can
    panic: on a store in working order, when the eight bytes of the
    content at the position decode to more than a slice can hold, the
    [make] of [Read] panics. *)
Theorem Read_panics s pre hdr post n :
  store_ok s -> size s <= os.capacity (File s) ->
  content s = pre ++ hdr ++ post -> length hdr = 8%nat ->
  enc.Uint64 hdr = Some n -> maxAlloc < n ->
  fst (Read s (Z.of_nat (length pre))) = ReadPanic.
Proof.
  intros Hok Hroom Hc Hlen HU Hn.
  destruct (Flush_ok s Hok Hroom) as (f1 & HF & Hd & Hcl).
  pose proof (ok_size _ Hok) as Hsz. pose proof (ok_cap _ Hok) as Hcap.
  assert (Hlens : length (content s) =
                  (length pre + 8 + length post)%nat).
  { rewrite Hc, !length_app, Hlen. lia. }
  unfold Read. rewrite HF.
  rewrite int64_small by lia.
  rewrite Hc in Hd.
  rewrite (os_ReadAt_exact f1 _ pre hdr post Hcl Hd)
    by (rewrite repeat_length; symmetry; exact Hlen).
  rewrite HU.
  destruct (Z.ltb_spec maxAlloc n) as [_|]; [reflexivity | lia].
Qed.

Lemma Read_panics_witness :
  store_ok after_ff8 /\
  size after_ff8 <= os.capacity (File after_ff8) /\
  content after_ff8 = firstn 8 (frame ff8) ++ ff8 ++ [] /\
  length ff8 = 8%nat /\
  enc.Uint64 ff8 = Some (2 ^ 64 - 1) /\ maxAlloc < 2 ^ 64 - 1 /\
  fst (Read after_ff8 8) = ReadPanic.
Proof.
  assert (H1 : store_ok after_ff8).
  { constructor; try (vm_compute; reflexivity). right. reflexivity. }
  assert (H2 : size after_ff8 <= os.capacity (File after_ff8))
    by (vm_compute; discriminate).
  assert (H3 : content after_ff8 = firstn 8 (frame ff8) ++ ff8 ++ [])
    by (vm_compute; reflexivity).
  assert (H4 : length ff8 = 8%nat) by reflexivity.
  assert (H5 : enc.Uint64 ff8 = Some (2 ^ 64 - 1))
    by (vm_compute; reflexivity).
  assert (H6 : maxAlloc < 2 ^ 64 - 1) by (vm_compute; reflexivity).
  repeat (split; [assumption|]).
  exact (Read_panics after_ff8 _ ff8 [] _ H1 H2 H3 H4 H5 H6).
Defined.

(** ** The write buffer and the file *)

Lemma Flush_bound b f e b' f' :
  bufio.Flush b f = (e, b', f') ->
  (length (bufio.buffered b') <= length (bufio.buffered b))%nat.
Proof.
  intros HF. destruct (Flush_suffix _ _ _ _ _ HF) as (j & Hj).
  rewrite Hj, length_skipn. lia.
Qed.

Lemma bufio_Write_bound b f p w e b' f' :
  bufio.Write b f p = (w, e, b', f') ->
  (length (bufio.buffered b) <= bufio.defaultBufSize)%nat ->
  (length (bufio.buffered b') <= bufio.defaultBufSize)%nat.
Proof.
  unfold bufio.Write. intros H Hb.
  destruct (Write_loop_invariant
              (fun st => (length (bufio.buffered (bufio.lw st))
                          <= bufio.defaultBufSize)%nat))
    with (st := bufio.mkLoop b f p 0) as [Hinv _].
  - intros st Hst _. unfold bufio.loop_body.
    destruct (length (bufio.buffered (bufio.lw st)) =? 0)%nat.
    + destruct (os.Write _ _) as [[n0 e0] f0].
      cbn [bufio.lw bufio.buffered]. assumption.
    + set (n := Nat.min _ _).
      destruct (bufio.Flush _ _) as [[e0 b2] f0] eqn:HF.
      apply Flush_bound in HF. cbn [bufio.lw bufio.buffered] in *.
      rewrite length_app, length_firstn in HF.
      unfold n, bufio.Available in HF. lia.
  - exact Hb.
  - set (st := bufio.Write_loop _) in *.
    destruct (bufio.err (bufio.lw st)); inversion H; subst; [assumption|].
    cbn [bufio.buffered]. rewrite length_app, length_firstn.
    unfold bufio.Available. lia.
Qed.

Lemma step_bound s o :
  (length (bufio.buffered (buf s)) <= bufio.defaultBufSize)%nat ->
  (length (bufio.buffered (buf (step s o))) <= bufio.defaultBufSize)%nat.
Proof.
  intros Hb.
  assert (Hflush : forall e b1 f1,
            bufio.Flush (buf s) (File s) = (e, b1, f1) ->
            (length (bufio.buffered b1) <= bufio.defaultBufSize)%nat).
  { intros e b1 f1 HF. apply Flush_bound in HF. lia. }
  destruct o as [p|pos|p off|]; cbn [step].
  - unfold Append, binary.Write.
    destruct (bufio.Write (buf s) (File s) _) as [[[w1 e1] b1] f1] eqn:HW1.
    pose proof (bufio_Write_bound _ _ _ _ _ _ _ HW1 Hb) as Hb1.
    destruct e1; [exact Hb1|].
    destruct (bufio.Write b1 f1 p) as [[[w2 e2] b2] f2] eqn:HW2.
    pose proof (bufio_Write_bound _ _ _ _ _ _ _ HW2 Hb1) as Hb2.
    destruct e2; exact Hb2.
  - rewrite Read_store.
    destruct (bufio.Flush _ _) as [[e b1] f1] eqn:HF. eauto.
  - rewrite ReadAt_store.
    destruct (bufio.Flush _ _) as [[e b1] f1] eqn:HF. eauto.
  - pose proof (Close_store s) as HC.
    destruct (bufio.Flush _ _) as [[e b1] f1] eqn:HF.
    destruct HC as (-> & _). eauto.
Qed.

(** X9. The write buffer never holds more than 4096 bytes: whatever the
    calls made on a store and whether they fail, a buffer within the
    bound, as that of a new store is, stays within it. *)
Theorem buffer_bounded s ops :
  (length (bufio.buffered (buf s)) <= bufio.defaultBufSize)%nat ->
  (length (bufio.buffered (buf (run s ops))) <= bufio.defaultBufSize)%nat.
Proof.
  revert s. induction ops as [|o ops IH]; intros s Hb; [exact Hb|].
  change (run s (o :: ops)) with (run (step s o) ops).
  apply IH, step_bound, Hb.
Qed.

Lemma buffer_bounded_witness :
  (length (bufio.buffered (buf fresh)) <= bufio.defaultBufSize)%nat /\
  (length (bufio.buffered
             (buf (run fresh [OpAppend big; OpAppend hello; OpClose;
                              OpAppend big])))
   <= bufio.defaultBufSize)%nat.
Proof.
  assert (H1 : (length (bufio.buffered (buf fresh))
                <= bufio.defaultBufSize)%nat)
    by (unfold bufio.defaultBufSize; simpl; lia).
  split; [exact H1|]. exact (buffer_bounded fresh _ H1).
Defined.

(** X10. [Append] does not wait for a flush to write: on a store in
    working order with room in the medium, when the frame does not fit
    what is left of the write buffer, the call itself adds bytes to the
    file, and what it added followed by the buffer it left is the old
    buffer followed by the frame. *)
Theorem Append_spills s p :
  store_ok s ->
  size s + lenWidth + Z.of_nat (length p) <= os.capacity (File s) ->
  (length (bufio.buffered (buf s)) <= bufio.defaultBufSize)%nat ->
  (bufio.defaultBufSize
   < length (bufio.buffered (buf s)) + 8 + length p)%nat ->
  exists s1 added,
    Append s p = ((lenWidth + Z.of_nat (length p), size s, None), s1) /\
    added <> [] /\
    os.data (File s1) = os.data (File s) ++ added /\
    added ++ bufio.buffered (buf s1) = bufio.buffered (buf s) ++ frame p.
Proof.
  intros Hok Hroom Hb Hbig.
  destruct (Append_ok s p Hok Hroom) as (s1 & HA & _ & Hc & _).
  pose proof (step_bound s (OpAppend p) Hb) as Hb1.
  cbn [step] in Hb1. rewrite HA in Hb1. cbn [snd] in Hb1.
  unfold content in Hc.
  pose proof (f_equal (@length byte) Hc) as Hl.
  rewrite !length_app, frame_length in Hl.
  assert (Hlt : (length (os.data (File s)) < length (os.data (File s1)))%nat)
    by lia.
  exists s1, (skipn (length (os.data (File s))) (os.data (File s1))).
  split; [exact HA|].
  assert (Hpre : firstn (length (os.data (File s))) (os.data (File s1))
                 = os.data (File s)).
  { pose proof (f_equal (firstn (length (os.data (File s)))) Hc) as Hf.
    rewrite <- app_assoc in Hf.
    rewrite (firstn_app _ (os.data (File s1))) in Hf.
    rewrite (firstn_app _ (os.data (File s))) in Hf.
    replace (length (os.data (File s)) - length (os.data (File s1)))%nat
      with 0%nat in Hf by lia.
    rewrite Nat.sub_diag, firstn_all in Hf. simpl in Hf.
    rewrite !app_nil_r in Hf. exact Hf. }
  assert (Hsplit : os.data (File s1) = os.data (File s)
            ++ skipn (length (os.data (File s))) (os.data (File s1))).
  { rewrite <- Hpre at 1. symmetry. apply firstn_skipn. }
  split.
  - intros Hnil. apply (f_equal (@length byte)) in Hnil.
    rewrite length_skipn in Hnil. simpl in Hnil. lia.
  - split; [exact Hsplit|].
    rewrite Hsplit, <- !app_assoc in Hc.
    apply app_inv_head in Hc. exact Hc.
Qed.

Lemma Append_spills_witness :
  store_ok after_hello /\
  size after_hello + lenWidth + Z.of_nat (length big)
    <= os.capacity (File after_hello) /\
  (length (bufio.buffered (buf after_hello)) <= bufio.defaultBufSize)%nat /\
  (bufio.defaultBufSize
   < length (bufio.buffered (buf after_hello)) + 8 + length big)%nat /\
  exists s1 added,
    Append after_hello big
      = ((lenWidth + Z.of_nat (length big), size after_hello, None), s1) /\
    added <> [] /\
    os.data (File s1) = os.data (File after_hello) ++ added /\
    added ++ bufio.buffered (buf s1)
      = bufio.buffered (buf after_hello) ++ frame big.
Proof.
  assert (H1 : store_ok after_hello).
  { constructor; try (vm_compute; reflexivity). right. reflexivity. }
  assert (H2 : size after_hello + lenWidth + Z.of_nat (length big)
               <= os.capacity (File after_hello))
    by (vm_compute; discriminate).
  assert (H3 : (length (bufio.buffered (buf after_hello))
                <= bufio.defaultBufSize)%nat)
    by (apply Nat.leb_le; vm_compute; reflexivity).
  assert (H4 : (bufio.defaultBufSize
                < length (bufio.buffered (buf after_hello)) + 8
                  + length big)%nat)
    by (apply Nat.ltb_lt; vm_compute; reflexivity).
  repeat (split; [assumption|]).
  exact (Append_spills after_hello big H1 H2 H3 H4).
Defined.

(** X11. A frame that fits what is left of the write buffer is only
    copied into it: [Append] succeeds with the size as position, adds
    the frame to the buffer and leaves the file as it was; the medium is
    not asked, and not even whether the file is open. *)
Theorem Append_buffered s p :
  bufio.err (buf s) = None ->
  (length (bufio.buffered (buf s)) + 8 + length p
     <= bufio.defaultBufSize)%nat ->
  Append s p =
  ((8 + Z.of_nat (length p), size s, None),
   mkStore (File s)
           (bufio.mkWriter (bufio.buffered (buf s) ++ frame p) None)
           (uint64 (size s + (8 + Z.of_nat (length p))))).
Proof. exact (Append_in_buffer s p). Qed.

Lemma Append_buffered_witness :
  bufio.err (buf closed_store) = None /\
  (length (bufio.buffered (buf closed_store)) + 8 + length world
     <= bufio.defaultBufSize)%nat /\
  Append closed_store world =
  ((8 + Z.of_nat (length world), size closed_store, None),
   mkStore (File closed_store)
           (bufio.mkWriter (bufio.buffered (buf closed_store) ++ frame world)
                           None)
           (uint64 (size closed_store + (8 + Z.of_nat (length world))))).
Proof.
  assert (H1 : bufio.err (buf closed_store) = None)
    by (vm_compute; reflexivity).
  assert (H2 : (length (bufio.buffered (buf closed_store)) + 8
                + length world <= bufio.defaultBufSize)%nat)
    by (apply Nat.leb_le; vm_compute; reflexivity).
  split; [exact H1|]. split; [exact H2|].
  exact (Append_buffered closed_store world H1 H2).
Defined.

(** ** Sequences of calls *)

Lemma expected_counts z ps :
  fold_right Z.add 0 (map (fun r => fst (fst r)) (expected z ps))
  = footprint ps.
Proof.
  revert z. induction ps as [|p ps IH]; intros z; [reflexivity|].
  cbn [expected map fold_right footprint fst]. rewrite IH. reflexivity.
Qed.

(** X12. The counts returned by a sequence of successful appends add up
    to what the size has grown by, which is the number of bytes the
    frames take. *)
Theorem counts_add_up s ps rs s' :
  appends s ps = (rs, s') -> Forall succeeded rs ->
  0 <= size s -> size s + footprint ps < 2 ^ 64 ->
  fold_right Z.add 0 (map (fun r => fst (fst r)) rs) = size s' - size s /\
  size s' - size s = Z.of_nat (length (frames ps)).
Proof.
  intros HA Hall Hnn Hroom.
  destruct (appends_spec ps s rs s' HA Hall Hnn Hroom) as (Hrs & Hsz).
  subst rs. rewrite expected_counts, <- footprint_frames. lia.
Qed.

Lemma counts_add_up_witness :
  appends fresh [hello; world; bang] =
    ([(13, 0, None); (14, 13, None); (9, 27, None)],
     snd (appends fresh [hello; world; bang])) /\
  Forall succeeded [(13, 0, None); (14, 13, None); (9, 27, None)] /\
  0 <= size fresh /\ size fresh + footprint [hello; world; bang] < 2 ^ 64 /\
  fold_right Z.add 0
    (map (fun r => fst (fst r))
         [(13, 0, @None error); (14, 13, None); (9, 27, None)])
  = size (snd (appends fresh [hello; world; bang])) - size fresh.
Proof.
  assert (H1 : appends fresh [hello; world; bang] =
                 ([(13, 0, None); (14, 13, None); (9, 27, None)],
                  snd (appends fresh [hello; world; bang])))
    by (vm_compute; reflexivity).
  assert (H2 : Forall succeeded
                 [(13, 0, None); (14, 13, None); (9, 27, None)])
    by (repeat constructor).
  assert (H3 : 0 <= size fresh) by (vm_compute; discriminate).
  assert (H4 : size fresh + footprint [hello; world; bang] < 2 ^ 64)
    by (vm_compute; reflexivity).
  repeat (split; [assumption|]).
  exact (proj1 (counts_add_up fresh _ _ _ H1 H2 H3 H4)).
Defined.

(** X13. Every record of a sequence of appends is read back from the
    same store: on a store in working order with room in the medium the
    appends succeed, [Read] at the position returned for any of the
    records returns that record, and all these reads leave one and the
    same store. *)
Theorem appended_records_readable s ps :
  store_ok s -> Forall is_slice ps ->
  size s + footprint ps <= os.capacity (File s) ->
  exists rs s1 s2,
    appends s ps = (rs, s1) /\ Forall succeeded rs /\
    length rs = length ps /\
    forall i d, (i < length ps)%nat ->
      Read s1 (position (nth i rs d)) = (ReadOk (nth i ps []), s2) /\
      Read s2 (position (nth i rs d)) = (ReadOk (nth i ps []), s2).
Proof.
  intros Hok Hsl Hroom.
  destruct (appends_ok ps s Hok Hroom)
    as (s1 & HA & Hok1 & Hc1 & (_ & _ & _ & Hcap1)).
  pose proof (ok_size _ Hok) as Hsz. pose proof (ok_size _ Hok1) as Hsz1.
  pose proof (footprint_frames ps) as Hfp.
  rewrite Hc1, length_app in Hsz1.
  exists (expected (size s) ps), s1, (snd (Read s1 0)).
  split; [exact HA|]. split; [apply expected_succeeded|].
  split; [apply expected_length|].
  intros i d Hi.
  assert (Hslice : is_slice (nth i ps [])).
  { rewrite Forall_forall in Hsl. apply Hsl, nth_In, Hi. }
  assert (Hpos : position (nth i (expected (size s) ps) d) =
                 Z.of_nat (length (content s ++ frames (firstn i ps)))).
  { rewrite expected_position by assumption.
    rewrite footprint_frames, length_app, Hsz. lia. }
  assert (Hcont : content s1 = (content s ++ frames (firstn i ps))
                    ++ frame (nth i ps [])
                    ++ frames (skipn (S i) ps)).
  { rewrite Hc1, (frames_split ps i Hi), <- !app_assoc. reflexivity. }
  destruct (Read_frame s1 _ _ _ Hok1 Hslice Hcont)
    as (s2 & HR & _); [lia|].
  rewrite Hpos.
  assert (Hs2 : s2 = snd (Read s1 0)).
  { apply (f_equal snd) in HR. cbn [snd] in HR. rewrite <- HR.
    rewrite !Read_store. reflexivity. }
  subst s2. split; [exact HR|].
  pose proof (Read_twice s1 (Z.of_nat
                (length (content s ++ frames (firstn i ps))))) as Ht.
  rewrite HR in Ht. exact Ht.
Qed.

Lemma appended_records_readable_witness :
  store_ok fresh /\ Forall is_slice [hello; world] /\
  size fresh + footprint [hello; world] <= os.capacity (File fresh) /\
  exists rs s1 s2,
    appends fresh [hello; world] = (rs, s1) /\ Forall succeeded rs /\
    length rs = length [hello; world] /\
    forall i d, (i < length [hello; world])%nat ->
      Read s1 (position (nth i rs d))
        = (ReadOk (nth i [hello; world] []), s2) /\
      Read s2 (position (nth i rs d))
        = (ReadOk (nth i [hello; world] []), s2).
Proof.
  assert (H1 : store_ok fresh) by exact fresh_ok.
  assert (H2 : Forall is_slice [hello; world])
    by (repeat constructor; vm_compute; discriminate).
  assert (H3 : size fresh + footprint [hello; world]
               <= os.capacity (File fresh)) by (vm_compute; discriminate).
  repeat (split; [assumption|]).
  exact (appended_records_readable fresh _ H1 H2 H3).
Defined.

(** X14. Records never overlap: whatever calls are made between two
    successful appends on a store, the position returned by the later
    one is at or after the end of the earlier record. *)
Theorem records_never_overlap s p n pos s1 ops q n' pos' s2 :
  Append s p = ((n, pos, None), s1) ->
  Append (run s1 ops) q = ((n', pos', None), s2) ->
  0 <= size s ->
  size s + lenWidth + Z.of_nat (length p) + appended ops < 2 ^ 64 ->
  pos + n <= pos' /\ n = lenWidth + Z.of_nat (length p) /\ pos = size s.
Proof.
  intros HA1 HA2 Hnn Hroom.
  pose proof (appended_nonneg ops) as Hops.
  pose proof (Append_spec _ _ _ _ _ _ HA1) as (Hs1 & _).
  destruct (Hs1 eq_refl) as (Hn & Hpos & Hsz1).
  unfold lenWidth in *.
  rewrite uint64_small in Hn by lia.
  rewrite uint64_small in Hsz1 by lia.
  pose proof (Append_spec _ _ _ _ _ _ HA2) as (Hs2 & _).
  destruct (Hs2 eq_refl) as (_ & Hpos' & _).
  pose proof (run_size ops s1 ltac:(lia) ltac:(lia)) as Hrun.
  lia.
Qed.

Lemma records_never_overlap_witness :
  Append fresh hello = ((13, 0, None), after_hello) /\
  Append (run after_hello [OpRead 0; OpAppend bang; OpReadAt [x00] 3]) world
  = ((14, 22, None),
     snd (Append (run after_hello
                    [OpRead 0; OpAppend bang; OpReadAt [x00] 3]) world)) /\
  0 <= size fresh /\
  size fresh + lenWidth + Z.of_nat (length hello)
    + appended [OpRead 0; OpAppend bang; OpReadAt [x00] 3] < 2 ^ 64 /\
  0 + 13 <= 22.
Proof.
  assert (H1 : Append fresh hello = ((13, 0, None), after_hello))
    by (vm_compute; reflexivity).
  assert (H2 : Append (run after_hello
                         [OpRead 0; OpAppend bang; OpReadAt [x00] 3]) world
               = ((14, 22, None),
                  snd (Append (run after_hello
                         [OpRead 0; OpAppend bang; OpReadAt [x00] 3]) world)))
    by (vm_compute; reflexivity).
  assert (H3 : 0 <= size fresh) by (vm_compute; discriminate).
  assert (H4 : size fresh + lenWidth + Z.of_nat (length hello)
               + appended [OpRead 0; OpAppend bang; OpReadAt [x00] 3]
               < 2 ^ 64) by (vm_compute; reflexivity).
  repeat (split; [assumption|]).
  exact (proj1 (records_never_overlap _ _ _ _ _ _ _ _ _ _ H1 H2 H3 H4)).
Defined.

(** A flush of more than the medium takes is a short write. *)
Lemma Flush_no_room b f :
  bufio.err b = None -> os.closed f = false ->
  bufio.buffered b <> [] ->
  os.capacity f < Z.of_nat (wpos f + length (bufio.buffered b)) ->
  exists n f',
    (n < length (bufio.buffered b))%nat /\
    bufio.Flush b f =
      (Some ErrNoSpace,
       bufio.mkWriter (skipn n (bufio.buffered b)) (Some ErrNoSpace), f') /\
    os.closed f' = false.
Proof.
  intros Herr Hcl Hne Hcap. unfold bufio.Flush. rewrite Herr.
  assert (0 < length (bufio.buffered b))%nat
    by (destruct (bufio.buffered b); [contradiction | simpl; lia]).
  destruct (os.Write f (bufio.buffered b)) as [[n e] f'] eqn:HW.
  pose proof (os_Write_flags _ _ _ _ _ HW) as (_ & Hcl' & _).
  unfold os.Write in HW. rewrite Hcl in HW. fold (wpos f) in HW.
  assert (Hn : n = Nat.min (length (bufio.buffered b))
                     (Z.to_nat (os.capacity f - Z.of_nat (wpos f))))
    by (inversion HW; reflexivity).
  assert (Hlt : (n < length (bufio.buffered b))%nat) by lia.
  rewrite <- Hn in HW.
  destruct (Nat.ltb_spec n (length (bufio.buffered b))) as [_|]; [|lia].
  assert (He : e = Some ErrNoSpace) by (inversion HW; reflexivity).
  subst e.
  destruct (Nat.eqb_spec (length (bufio.buffered b)) 0) as [Hz|_]; [lia|].
  exists n, f'. split; [assumption|]. split; [reflexivity | congruence].
Qed.

(** X15. An error of the medium is reported late: on a store in working
    order, a frame that fits the write buffer but not the medium is
    appended with success, and the size counts it; the failure shows at
    the next call that flushes, [Read], [ReadAt] or [Close], which
    returns an error, leaves the file open and short of the size, and
    the error pending. *)
Theorem medium_error_is_late s p :
  store_ok s ->
  (length (bufio.buffered (buf s)) + 8 + length p
     <= bufio.defaultBufSize)%nat ->
  size s <= os.capacity (File s) ->
  os.capacity (File s) < size s + lenWidth + Z.of_nat (length p) ->
  exists s1,
    Append s p = ((8 + Z.of_nat (length p), size s, None), s1) /\
    size s1 = size s + 8 + Z.of_nat (length p) /\
    forall o, flushes o ->
      exists e,
        bufio.err (buf (step s1 o)) = Some e /\
        match o with
        | OpRead pos => fst (Read s1 pos) = ReadErr e
        | OpReadAt b off => snd (fst (ReadAt s1 b off)) = Some e
        | OpClose => fst (Close s1) = Some e
        | OpAppend _ => True
        end /\
        os.closed (File (step s1 o)) = false /\
        Z.of_nat (length (os.data (File (step s1 o)))) < size (step s1 o).
Proof.
  intros [Hcl Herr Hend Hsize Hcap] Hfit Hheld Hroom.
  unfold content in Hsize. rewrite length_app in Hsize.
  unfold lenWidth, bufio.defaultBufSize in *.
  eexists. split; [apply (Append_in_buffer s p Herr Hfit)|].
  cbn [size]. rewrite uint64_small by lia. split; [lia|].
  set (b1 := bufio.mkWriter (bufio.buffered (buf s) ++ frame p) None).
  destruct (Flush_no_room b1 (File s) eq_refl Hcl)
    as (n & f' & Hn & HF & Hcl').
  { unfold b1, frame. cbn [bufio.buffered].
    destruct (bufio.buffered (buf s)); discriminate. }
  { unfold b1. cbn [bufio.buffered].
    rewrite length_app, frame_length, (at_end_wpos _ Hend). lia. }
  destruct (Flush_content _ _ _ _ _ Hend HF) as (Hd & _).
  cbn [bufio.buffered] in Hd.
  assert (Hshort : Z.of_nat (length (os.data f'))
                   < size s + (8 + Z.of_nat (length p))).
  { apply (f_equal (@length byte)) in Hd.
    rewrite !length_app, length_skipn in Hd.
    unfold b1 in Hd, Hn. cbn [bufio.buffered] in Hd, Hn.
    rewrite length_app, frame_length in Hd, Hn. lia. }
  intros o Hfl. exists ErrNoSpace.
  destruct o as [q|pos|b off|]; [contradiction| | |]; cbn [step].
  - unfold Read. cbn [File buf size]. fold b1. rewrite HF.
    cbn [fst snd buf File size bufio.err]. auto.
  - unfold ReadAt. cbn [File buf size]. fold b1. rewrite HF.
    cbn [fst snd buf File size bufio.err]. auto.
  - unfold Close. cbn [File buf size]. fold b1. rewrite HF.
    cbn [fst snd buf File size bufio.err]. auto.
Qed.

Lemma medium_error_is_late_witness :
  store_ok small_after_hello /\
  (length (bufio.buffered (buf small_after_hello)) + 8 + length world
     <= bufio.defaultBufSize)%nat /\
  size small_after_hello <= os.capacity (File small_after_hello) /\
  os.capacity (File small_after_hello)
    < size small_after_hello + lenWidth + Z.of_nat (length world) /\
  exists s1,
    Append small_after_hello world = ((14, 13, None), s1) /\
    size s1 = 27 /\
    fst (Close s1) = Some ErrNoSpace /\
    length (os.data (File (snd (Close s1)))) = 20%nat.
Proof.
  assert (H1 : store_ok small_after_hello).
  { constructor; try (vm_compute; reflexivity). right. reflexivity. }
  assert (H2 : (length (bufio.buffered (buf small_after_hello)) + 8
                + length world <= bufio.defaultBufSize)%nat)
    by (apply Nat.leb_le; vm_compute; reflexivity).
  assert (H3 : size small_after_hello
               <= os.capacity (File small_after_hello))
    by (vm_compute; discriminate).
  assert (H4 : os.capacity (File small_after_hello)
               < size small_after_hello + lenWidth
                 + Z.of_nat (length world)) by (vm_compute; reflexivity).
  repeat (split; [assumption|]).
  destruct (medium_error_is_late small_after_hello world H1 H2 H3 H4)
    as (s1 & HA & Hsz & _).
  exists s1. split; [exact HA|]. split; [exact Hsz|].
  apply (f_equal snd) in HA. cbn [snd] in HA. subst s1.
  vm_compute. split; reflexivity.
Defined.

(** X16. The edges of [ReadAt], on a store in working order: a negative
    offset is refused and the buffer left as it was; an empty buffer is
    filled at once, wherever the offset lies; and a buffer that reaches
    past the end of the content is filled with the bytes there are,
    whose count is returned with [io.EOF], the rest of the buffer being
    left as it was. *)
Theorem ReadAt_edges s b off :
  store_ok s -> size s <= os.capacity (File s) ->
  (off < 0 -> fst (ReadAt s b off) = (b, 0%nat, Some ErrNegativeOffset)) /\
  (0 <= off -> b = [] -> fst (ReadAt s b off) = (b, 0%nat, None)) /\
  (0 <= off -> b <> [] -> size s < off + Z.of_nat (length b) ->
   fst (ReadAt s b off)
   = (skipn (Z.to_nat off) (content s)
        ++ skipn (length (skipn (Z.to_nat off) (content s))) b,
      length (skipn (Z.to_nat off) (content s)), Some EOF)).
Proof.
  intros Hok Hroom.
  destruct (Flush_ok s Hok Hroom) as (f1 & HF & Hd & Hcl).
  pose proof (ok_size _ Hok) as Hsz.
  unfold ReadAt. rewrite HF. cbn [fst]. unfold os.ReadAt.
  rewrite Hcl, Hd.
  split; [|split].
  - intros Hneg. destruct (Z.ltb_spec off 0); [reflexivity | lia].
  - intros Hpos ->. destruct (Z.ltb_spec off 0); [lia | reflexivity].
  - intros Hpos Hne Hshort.
    set (rest := skipn (Z.to_nat off) (content s)).
    destruct (Z.ltb_spec off 0); [lia|].
    assert (0 < length b)%nat by (destruct b; [contradiction | simpl; lia]).
    destruct (Nat.eqb_spec (length b) 0); [lia|].
    assert (Hrest : firstn (length b) rest = rest).
    { apply firstn_all2. unfold rest. rewrite length_skipn. lia. }
    rewrite Hrest.
    destruct (Nat.ltb_spec (length rest) (length b)) as [_|Hge];
      [reflexivity|].
    unfold rest in Hge. rewrite length_skipn in Hge. lia.
Qed.

Lemma ReadAt_edges_witness :
  store_ok after_hello /\
  size after_hello <= os.capacity (File after_hello) /\
  fst (ReadAt after_hello (repeat x00 8) 9)
  = ([x65; x6c; x6c; x6f; x00; x00; x00; x00], 4%nat, Some EOF).
Proof.
  assert (H1 : store_ok after_hello).
  { constructor; try (vm_compute; reflexivity). right. reflexivity. }
  assert (H2 : size after_hello <= os.capacity (File after_hello))
    by (vm_compute; discriminate).
  split; [exact H1|]. split; [exact H2|].
  refine (eq_trans
            (proj2 (proj2 (ReadAt_edges after_hello (repeat x00 8) 9 H1 H2))
               _ _ _) _).
  - lia.
  - discriminate.
  - vm_compute. reflexivity.
  - vm_compute. reflexivity.
Defined.
